(** * build_webcontent.py: the WebContent.h generator

    A shallow embedding of [src/build_webcontent.py] and the properties of
    its pipeline: literal escaping, JS and CSS normalisation, HTML assembly
    and header emission.

    Python [str] values are sequences of Unicode code points; a character
    is modelled by its code point (an [N]) and a string by a list of them. *)

From Stdlib Require Import NArith List String Ascii Lia Bool DecimalString.
From stdpp Require Import gmap strings.
Import ListNotations.

Local Open Scope N_scope.

(** ** Characters and strings *)

Definition char : Type := N.
Definition str : Type := list char.

(** An ASCII literal of the source as a [str]. *)
Definition lit (s : string) : str :=
  map N_of_ascii (list_ascii_of_string s).

Definition backslash : char := 92.
Definition dquote : char := 34.
Definition newline : char := 10.
Definition carriage_return : char := 13.
Definition tab : char := 9.
Definition letter_n : char := 110.
Definition letter_t : char := 116.

(** ** [escape_for_c] (lines 7-23)

    The loop body appends one piece to the list [result] (or nothing for a
    carriage return); [''.join(result)] concatenates the pieces. *)

Definition escape_step (result : list str) (ch : char) : list str :=
  if ch =? backslash then result ++ [[backslash; backslash]]
  else if ch =? dquote then result ++ [[backslash; dquote]]
  else if ch =? newline then result ++ [[backslash; letter_n]]
  else if ch =? carriage_return then result
  else if ch =? tab then result ++ [[backslash; letter_t]]
  else result ++ [[ch]].

Definition escape_for_c (content : str) : str :=
  concat (fold_left escape_step content []).

(** The per-character table as the specification words it, in its
    precedence order. *)
Definition escape_char (ch : char) : str :=
  if ch =? backslash then [backslash; backslash]
  else if ch =? dquote then [backslash; dquote]
  else if ch =? newline then [backslash; letter_n]
  else if ch =? carriage_return then []
  else if ch =? tab then [backslash; letter_t]
  else [ch].

(** Number of positions of [s] at which [pat] starts. *)
Fixpoint is_prefix (pat s : str) : bool :=
  match pat, s with
  | [], _ => true
  | _ :: _, [] => false
  | p :: pat', c :: s' => (p =? c) && is_prefix pat' s'
  end.

Fixpoint count_at_positions (pat s : str) : nat :=
  match s with
  | [] => 0%nat
  | _ :: t =>
      if is_prefix pat s then S (count_at_positions pat t)
      else count_at_positions pat t
  end.

Definition count_char (c : char) (s : str) : nat :=
  length (List.filter (N.eqb c) s).

(** Number of newline escapes met when an escaped text is read left to
    right the way a C compiler reads a string literal: a backslash and the
    character after it form one escape sequence. *)
Fixpoint count_newline_escapes (s : str) : nat :=
  match s with
  | [] => 0%nat
  | c :: t =>
      if c =? backslash then
        match t with
        | [] => 0%nat
        | d :: u =>
            if d =? letter_n then S (count_newline_escapes u)
            else count_newline_escapes u
        end
      else count_newline_escapes t
  end.

(** ** Python built-ins used by the script *)

(** [str.isspace] for one character; [str.strip] and the regular
    expression class [\s] (on [str] patterns) use the same table. *)
Definition isspace (c : char) : bool :=
  ((9 <=? c) && (c <=? 13)) || ((28 <=? c) && (c <=? 32))
  || (c =? 133) || (c =? 160) || (c =? 5760)
  || ((8192 <=? c) && (c <=? 8202))
  || (c =? 8232) || (c =? 8233) || (c =? 8239) || (c =? 8287)
  || (c =? 12288).
Arguments isspace : simpl never.

Definition space : char := 32.

(** [s.split(sep)] for a one-character separator: never the empty list. *)
Fixpoint split (sep : char) (s : str) : list str :=
  match s with
  | [] => [[]]
  | c :: t =>
      if c =? sep then [] :: split sep t
      else match split sep t with
           | l :: ls => (c :: l) :: ls
           | [] => [[c]]
           end
  end.

Fixpoint lstrip (s : str) : str :=
  match s with
  | [] => []
  | c :: t => if isspace c then lstrip t else s
  end.

Definition rstrip (s : str) : str := rev (lstrip (rev s)).

(** [s.strip()] *)
Definition strip (s : str) : str := rstrip (lstrip s).

(** [sep.join(pieces)] *)
Fixpoint join (sep : str) (pieces : list str) : str :=
  match pieces with
  | [] => []
  | x :: rest =>
      match rest with
      | [] => x
      | _ :: _ => x ++ sep ++ join sep rest
      end
  end.

(** Truth value of a string in a condition: non-empty. *)
Definition truthy (s : str) : bool :=
  match s with [] => false | _ :: _ => true end.

(** [s.find(old)]: index of the first occurrence, [None] for Python's -1. *)
Fixpoint find (old s : str) : option nat :=
  if is_prefix old s then Some 0%nat
  else match s with
       | [] => None
       | _ :: t => option_map S (find old t)
       end.

(** [s.replace(old, new)]: every occurrence found by a left-to-right scan
    is replaced and the scan resumes after it. [skip] counts the characters
    of the current occurrence still to be passed over. *)
Fixpoint replace_go (old new : str) (skip : nat) (s : str) : str :=
  match s with
  | [] => []
  | c :: t =>
      match skip with
      | S k => replace_go old new k t
      | O =>
          if is_prefix old s
          then new ++ replace_go old new (length old - 1) t
          else c :: replace_go old new 0 t
      end
  end.

Definition replace (old new s : str) : str :=
  match old with
  | [] => new ++ flat_map (fun c => c :: new) s
  | _ :: _ => replace_go old new 0 s
  end.

(** [s.replace(old, new, 1)]: the first occurrence only. This is what the
    specification's wording of the HTML Assembler describes. *)
Definition replace_first (old new s : str) : str :=
  match find old s with
  | Some i => firstn i s ++ new ++ skipn (i + length old) s
  | None => s
  end.

(** ** Regular expressions

    The fragment of [re] syntax the script uses, matched by backtracking
    as [re] does: alternatives are tried in order and the first complete
    match wins. [run r s g k] matches [r] at the head of [s] and hands the
    rest of the input and the text of group 1 to the continuation [k]. *)

Inductive regex : Type :=
| Lit (c : char)                 (* an escaped or ordinary character *)
| Class (p : char -> bool)       (* \s, [...] *)
| AnyChar                        (* . with re.DOTALL *)
| Seq (r1 r2 : regex)
| Star (r : regex)               (* r*   greedy *)
| LazyStar (r : regex)           (* r*?  non-greedy *)
| Group (r : regex).             (* (r), group 1 *)

(** r+ *)
Definition Plus (r : regex) : regex := Seq r (Star r).

Definition match_result : Type := option (str * option str).

Definition continuation : Type := str -> option str -> match_result.

Definition matcher : Type := str -> option str -> continuation -> match_result.

(** The repetition loops. Each round of the body has to consume input;
    [fuel], the length of the input at the start, then bounds the number
    of rounds. The greedy loop tries one more round before it tries what
    follows; the non-greedy loop tries what follows first. *)
Fixpoint greedy_loop (body : matcher) (k : continuation) (fuel : nat)
    (s : str) (g : option str) : match_result :=
  match fuel with
  | O => k s g
  | S fuel' =>
      match body s g (fun s' g' =>
              if (length s' <? length s)%nat
              then greedy_loop body k fuel' s' g'
              else None) with
      | Some res => Some res
      | None => k s g
      end
  end.

Fixpoint lazy_loop (body : matcher) (k : continuation) (fuel : nat)
    (s : str) (g : option str) : match_result :=
  match k s g with
  | Some res => Some res
  | None =>
      match fuel with
      | O => None
      | S fuel' =>
          body s g (fun s' g' =>
            if (length s' <? length s)%nat
            then lazy_loop body k fuel' s' g'
            else None)
      end
  end.

Fixpoint run (r : regex) (s : str) (g : option str) (k : continuation)
    : match_result :=
  match r with
  | Lit c =>
      match s with
      | x :: t => if x =? c then k t g else None
      | [] => None
      end
  | Class p =>
      match s with
      | x :: t => if p x then k t g else None
      | [] => None
      end
  | AnyChar =>
      match s with
      | _ :: t => k t g
      | [] => None
      end
  | Seq r1 r2 => run r1 s g (fun s' g' => run r2 s' g' k)
  | Star r' => greedy_loop (run r') k (length s) s g
  | LazyStar r' => lazy_loop (run r') k (length s) s g
  | Group r' =>
      run r' s g (fun s' _ => k s' (Some (firstn (length s - length s') s)))
  end.

(** [pattern.match]: a match at the head of [s], as the rest of the input
    after the match and the text of group 1. *)
Definition re_match (r : regex) (s : str) : match_result :=
  run r s None (fun s' g' => Some (s', g')).

(** [re.sub(pattern, repl, s)]: scan left to right; where the pattern
    matches, emit the replacement (a function of group 1) and resume after
    the match; elsewhere copy the character. The patterns of this script
    never match the empty string (lemmas [comment_re_consumes],
    [spaces_re_consumes], [around_special_re_consumes]), so a match that
    consumes nothing is not given a meaning of its own here: the character
    is copied. *)
Fixpoint re_sub_go (r : regex) (repl : option str -> str)
    (skip : nat) (s : str) : str :=
  match s with
  | [] => []
  | c :: t =>
      match skip with
      | S k => re_sub_go r repl k t
      | O =>
          match re_match r s with
          | Some (rest, g) =>
              match (length s - length rest)%nat with
              | S k => repl g ++ re_sub_go r repl k t
              | O => c :: re_sub_go r repl 0 t
              end
          | None => c :: re_sub_go r repl 0 t
          end
      end
  end.

Definition re_sub (r : regex) (repl : option str -> str) (s : str) : str :=
  re_sub_go r repl 0 s.

(** The replacement templates of the script: a constant, and [r'\1']. *)
Definition constant (text : str) : option str -> str := fun _ => text.
Definition group1 : option str -> str :=
  fun g => match g with Some x => x | None => [] end.

(** ** [minify_js] (lines 25-36) *)

Definition minify_js_step (result : list str) (line : str) : list str :=
  let stripped := strip line in
  if truthy stripped then result ++ [stripped] else result.

Definition minify_js (content : str) : str :=
  let lines := split newline content in
  let result := fold_left minify_js_step lines [] in
  join [newline] result.

(** The lines that survive, as the specification words them: each line
    trimmed, the empty ones dropped, order kept. *)
Definition trimmed_nonempty_lines (content : str) : list str :=
  List.filter truthy (map strip (split newline content)).

(** ** [minify_css] (lines 38-46) *)

Definition slash : char := 47.
Definition asterisk : char := 42.

(** [{}:;,] *)
Definition is_special (c : char) : bool :=
  (c =? 123) || (c =? 125) || (c =? 58) || (c =? 59) || (c =? 44).
Arguments is_special : simpl never.

(** r'/\*.*?\*/' with re.DOTALL *)
Definition comment_re : regex :=
  Seq (Lit slash) (Seq (Lit asterisk)
    (Seq (LazyStar AnyChar) (Seq (Lit asterisk) (Lit slash)))).

(** r'\s+' *)
Definition spaces_re : regex := Plus (Class isspace).

(** r'\s*([{}:;,])\s*' *)
Definition around_special_re : regex :=
  Seq (Star (Class isspace))
    (Seq (Group (Class is_special)) (Star (Class isspace))).

Definition remove_comments (content : str) : str :=
  re_sub comment_re (constant []) content.

Definition collapse_whitespace (content : str) : str :=
  re_sub spaces_re (constant [space]) content.

Definition tighten_specials (content : str) : str :=
  re_sub around_special_re group1 content.

Definition minify_css (content : str) : str :=
  let content := remove_comments content in
  let content := collapse_whitespace content in
  let content := tighten_specials content in
  strip content.

(** A [/* ... */] span somewhere in [s]: the comment pattern matches at
    some position. *)
Fixpoint has_comment_span (s : str) : bool :=
  match re_match comment_re s with
  | Some _ => true
  | None => match s with
            | [] => false
            | _ :: t => has_comment_span t
            end
  end.

(** Two whitespace characters in a row somewhere in [s]. *)
Fixpoint has_whitespace_run (s : str) : bool :=
  match s with
  | [] => false
  | c :: t =>
      match t with
      | [] => false
      | d :: _ => (isspace c && isspace d) || has_whitespace_run t
      end
  end.

(** Deleting the spaces next to one of [{}:;,]: [prev] is the character
    before the head of [s] in the text. *)
Fixpoint delete_adjacent_spaces_from (prev : option char) (s : str) : str :=
  match s with
  | [] => []
  | c :: t =>
      let after_special :=
        match prev with Some p => is_special p | None => false end in
      let before_special :=
        match t with d :: _ => is_special d | [] => false end in
      if (c =? space) && (after_special || before_special)
      then delete_adjacent_spaces_from (Some c) t
      else c :: delete_adjacent_spaces_from (Some c) t
  end.

Definition delete_adjacent_spaces (s : str) : str :=
  delete_adjacent_spaces_from None s.

(** The sequence of non-whitespace characters of a text. *)
Definition non_whitespace (s : str) : str :=
  List.filter (fun c => negb (isspace c)) s.

(** ** Files and console

    The run reads three files, writes one and prints two lines. A world is
    the text of every file that can be opened and decoded, by path, and
    the lines printed so far. The text of a file is what [f.read()]
    returns for it in text mode and, for a file being written, what has
    been passed to [f.write]. A path absent from [files] stands for a file
    that is missing, unreadable or not valid UTF-8: opening or reading it
    raises. Nothing in [main] catches an exception, so a raised error ends
    the run with the world as it is at that point. *)

Record world : Type := World {
  files : gmap string str;
  stdout : list str
}.

Inductive error : Type :=
| FileAccessError (path : string).

Inductive outcome (A : Type) : Type :=
| Done (a : A)
| Raised (e : error).
Arguments Done {A} a.
Arguments Raised {A} e.

Definition io (A : Type) : Type := world -> outcome A * world.

Definition ret {A : Type} (a : A) : io A := fun w => (Done a, w).

Definition bind {A B : Type} (m : io A) (f : A -> io B) : io B :=
  fun w =>
    match m w with
    | (Done a, w') => f a w'
    | (Raised e, w') => (Raised e, w')
    end.

Notation "'let*' x := m 'in' k" := (bind m (fun x => k))
  (at level 10, x name, m at level 100, k at level 200).
Notation "m ;;; k" := (bind m (fun _ => k))
  (at level 100, right associativity).

(** [with open(path, 'r', encoding='utf-8') as f: f.read()] *)
Definition read_text (path : string) : io str :=
  fun w =>
    match files w !! path with
    | Some text => (Done text, w)
    | None => (Raised (FileAccessError path), w)
    end.

(** [open(path, 'w', encoding='utf-8')]: creates or truncates the file. *)
Definition open_for_writing (path : string) : io unit :=
  fun w => (Done tt, World (<[path := []]> (files w)) (stdout w)).

(** [f.write(text)]: appends to what the file holds. *)
Definition write (path : string) (text : str) : io unit :=
  fun w =>
    let old := match files w !! path with Some t => t | None => [] end in
    (Done tt, World (<[path := old ++ text]> (files w)) (stdout w)).

Definition print (line : str) : io unit :=
  fun w => (Done tt, World (files w) (stdout w ++ [line])).

(** [str(n)] for a length. *)
Definition decimal (n : nat) : str :=
  lit (NilZero.string_of_uint (Nat.to_uint n)).

(** ** [main] (lines 48-75) *)

Definition link_tag : str :=
  lit "<link rel=" ++ [dquote] ++ lit "stylesheet" ++ [dquote]
  ++ lit " href=" ++ [dquote] ++ lit "style.css" ++ [dquote] ++ lit ">".

Definition script_tag : str :=
  lit "<script src=" ++ [dquote] ++ lit "app.js" ++ [dquote]
  ++ lit "></script>".

(** f'<style>{css}</style>' and f'<script>{js}</script>' *)
Definition style_block (css : str) : str :=
  lit "<style>" ++ css ++ lit "</style>".

Definition script_block (js : str) : str :=
  lit "<script>" ++ js ++ lit "</script>".

(** Lines 58 and 59. *)
Definition inject_css (css html : str) : str :=
  replace link_tag (style_block css) html.

Definition inject_js (js html : str) : str :=
  replace script_tag (script_block js) html.

Definition assemble (html css js : str) : str :=
  inject_js js (inject_css css html).

(** The assembler as the specification words it: the first occurrence of
    each tag only. *)
Definition assemble_first_only (html css js : str) : str :=
  replace_first script_tag (script_block js)
    (replace_first link_tag (style_block css) html).

Definition html_path : string := "data/index.html".
Definition css_path : string := "data/style.css".
Definition js_path : string := "data/app.js".
Definition header_path : string := "WebContent.h".

(** Lines 65-72: the [with] block that writes the header. *)
Definition write_header (escaped : str) : io unit :=
  open_for_writing header_path ;;;
  write header_path (lit "#ifndef WEB_CONTENT_H" ++ [newline]) ;;;
  write header_path (lit "#define WEB_CONTENT_H" ++ [newline; newline]) ;;;
  write header_path (lit "#include <pgmspace.h>" ++ [newline; newline]) ;;;
  write header_path (lit "const char INDEX_HTML[] PROGMEM = " ++ [dquote]) ;;;
  write header_path escaped ;;;
  write header_path ([dquote] ++ lit ";" ++ [newline; newline]) ;;;
  write header_path (lit "#endif" ++ [newline]).

Definition main : io unit :=
  let* html := read_text html_path in
  let* css_raw := read_text css_path in
  let css := minify_css css_raw in
  let* js_raw := read_text js_path in
  let js := minify_js js_raw in
  let html := inject_css css html in
  let html := inject_js js html in
  let escaped := escape_for_c html in
  write_header escaped ;;;
  print (lit "WebContent.h regenerated successfully!") ;;;
  print (lit "Total size: " ++ decimal (length escaped) ++ lit " chars").

(** The text of the generated header around an escaped literal [e]. *)
Definition header_text (e : str) : str :=
  lit "#ifndef WEB_CONTENT_H" ++ [newline]
  ++ lit "#define WEB_CONTENT_H" ++ [newline] ++ [newline]
  ++ lit "#include <pgmspace.h>" ++ [newline] ++ [newline]
  ++ lit "const char INDEX_HTML[] PROGMEM = " ++ [dquote] ++ e
  ++ [dquote] ++ lit ";" ++ [newline] ++ [newline]
  ++ lit "#endif" ++ [newline].

(** ** Vocabulary of the proofs *)

(** The rest of [s] after the first asterisk-slash, if there is one. *)
Fixpoint after_close (s : str) : option str :=
  match s with
  | [] => None
  | c :: t =>
      match t with
      | d :: u =>
          if (c =? asterisk) && (d =? slash) then Some u else after_close t
      | [] => None
      end
  end.

(** Whether [s] holds an asterisk-slash. *)
Definition closes (s : str) : bool :=
  match after_close s with Some _ => true | None => false end.

Definition starts_with (x : char) (s : str) : bool :=
  match s with d :: _ => d =? x | [] => false end.

Definition starts_with_space (s : str) : bool :=
  match s with d :: _ => isspace d | [] => false end.

Definition starts_with_special (s : str) : bool :=
  match s with d :: _ => is_special d | [] => false end.

(** Whether [s], put after a slash, opens a comment that is closed. *)
Definition opens_after_slash (s : str) : bool :=
  match s with d :: u => (d =? asterisk) && closes u | [] => false end.

(** Whether the comment pattern matches at the head of [s]. *)
Definition opens_comment (s : str) : bool :=
  match s with c :: t => (c =? slash) && opens_after_slash t | [] => false end.

(** The continuation that accepts: [re_match] is [run] with it. *)
Definition final : continuation := fun s' g' => Some (s', g').

(** An empty text or one whose first character is not whitespace. *)
Definition clean_head (s : str) : Prop :=
  match s with
  | [] => True
  | c :: _ => isspace c = false
  end.

(** A surviving line of [minify_js]: non-empty, already trimmed and free
    of newlines. *)
Definition settled (l : str) : Prop :=
  truthy l = true /\ strip l = l /\ ~ In newline l.

(** Two sample worlds: the first end-to-end scenario of the
    specification, and a run whose script file is missing while an older
    header exists. *)
Definition sample_world : world :=
  World (<[html_path := lit "<html>" ++ link_tag ++ lit "</html>"]>
           (<[css_path := lit "a{color:  red;}"]>
              (<[js_path := lit "foo();" ++ [newline; newline] ++ lit "bar();"]>
                 ∅)))
        [].

Definition world_without_script : world :=
  World (<[html_path := lit "<html></html>"]>
           (<[css_path := lit "a{}"]>
              (<[header_path := lit "old"]> ∅)))
        [].

(** ** Vocabulary of the further properties *)

(** A text without its carriage returns. *)
Definition without_cr (s : str) : str :=
  List.filter (fun c => negb (c =? carriage_return)) s.

(** Reading the body of a double-quoted C string literal back: a
    backslash takes the character after it, which has to be one of the
    four the script emits; a bare double quote would end the literal and a
    raw newline is not allowed inside one, so both are refused. *)
Fixpoint c_unescape (s : str) : option str :=
  match s with
  | [] => Some []
  | c :: t =>
      if c =? backslash then
        match t with
        | [] => None
        | d :: u =>
            if d =? backslash then option_map (cons backslash) (c_unescape u)
            else if d =? dquote then option_map (cons dquote) (c_unescape u)
            else if d =? letter_n then option_map (cons newline) (c_unescape u)
            else if d =? letter_t then option_map (cons tab) (c_unescape u)
            else None
        end
      else if (c =? dquote) || (c =? newline) then None
      else option_map (cons c) (c_unescape t)
  end.

(** Every whitespace character of [s] is the ASCII space. *)
Definition only_plain_spaces (s : str) : bool :=
  forallb (fun c => negb (isspace c) || (c =? space)) s.

(** A whitespace character directly before or after one of [{}:;,]
    somewhere in [s]. *)
Fixpoint space_next_to_special (s : str) : bool :=
  match s with
  | [] => false
  | c :: t =>
      (isspace c && starts_with_special t)
      || (is_special c && starts_with_space t)
      || space_next_to_special t
  end.

(** The characters of a list of lines, counting one separator after each
    line. *)
Definition lines_size (lines : list str) : nat :=
  list_sum (map (fun l => S (length l)) lines).

(** * Properties *)

Section Escaper.

Lemma escape_fold (content : str) (acc : list str) :
  concat (fold_left escape_step content acc)
  = concat acc ++ flat_map escape_char content.
Proof.
  revert acc. induction content as [|c s IH]; intros acc; simpl.
  - now rewrite app_nil_r.
  - rewrite IH. unfold escape_step, escape_char.
    repeat (destruct (_ =? _); [rewrite ?concat_app; simpl; now rewrite <- ?app_assoc|]).
    rewrite concat_app. simpl. now rewrite <- app_assoc.
Qed.

Lemma escape_for_c_flat_map (content : str) :
  escape_for_c content = flat_map escape_char content.
Proof. unfold escape_for_c. now rewrite escape_fold. Qed.

Lemma escape_for_c_cons (c : char) (s : str) :
  escape_for_c (c :: s) = escape_char c ++ escape_for_c s.
Proof. now rewrite !escape_for_c_flat_map. Qed.

End Escaper.

Section EscaperClaims.

Lemma escape_char_cases (c : char) :
  (c = backslash /\ escape_char c = [backslash; backslash])
  \/ (c = dquote /\ escape_char c = [backslash; dquote])
  \/ (c = newline /\ escape_char c = [backslash; letter_n])
  \/ (c = carriage_return /\ escape_char c = [])
  \/ (c = tab /\ escape_char c = [backslash; letter_t])
  \/ (c <> backslash /\ c <> dquote /\ c <> newline
      /\ c <> carriage_return /\ c <> tab /\ escape_char c = [c]).
Proof.
  unfold escape_char.
  destruct (N.eqb_spec c backslash) as [->|H1]; [now left|].
  destruct (N.eqb_spec c dquote) as [->|H2]; [now right; left|].
  destruct (N.eqb_spec c newline) as [->|H3]; [now right; right; left|].
  destruct (N.eqb_spec c carriage_return) as [->|H4];
    [now right; right; right; left|].
  destruct (N.eqb_spec c tab) as [->|H5];
    [now right; right; right; right; left|].
  now right; right; right; right; right.
Qed.

(** C5. The escaper maps each character on its own, in order: backslash
    to two backslashes, double quote to backslash and double quote,
    newline to backslash and n, carriage return to nothing, tab to
    backslash and t, any other character to itself; the output is the
    concatenation of the images. *)
Theorem escape_for_c_per_character (content : str) :
  escape_for_c content = flat_map escape_char content
  /\ escape_char backslash = [backslash; backslash]
  /\ escape_char dquote = [backslash; dquote]
  /\ escape_char newline = [backslash; letter_n]
  /\ escape_char carriage_return = []
  /\ escape_char tab = [backslash; letter_t]
  /\ (forall c : char,
        c <> backslash -> c <> dquote -> c <> newline ->
        c <> carriage_return -> c <> tab -> escape_char c = [c]).
Proof.
  split; [apply escape_for_c_flat_map|].
  repeat (split; [reflexivity|]).
  intros c H1 H2 H3 H4 H5.
  destruct (escape_char_cases c) as [[E _]|[[E _]|[[E _]|[[E _]|[[E _]|H]]]]];
    try contradiction.
  apply H.
Qed.

(** C9. The escaper distributes over concatenation and maps the empty
    string to the empty string. *)
Theorem escape_for_c_homomorphism (a b : str) :
  escape_for_c (a ++ b) = escape_for_c a ++ escape_for_c b
  /\ escape_for_c [] = [].
Proof.
  split; [|reflexivity].
  rewrite !escape_for_c_flat_map. apply flat_map_app.
Qed.

Lemma escape_char_no_cr (c : char) : ~ In carriage_return (escape_char c).
Proof.
  destruct (escape_char_cases c) as [[_ E]|[[_ E]|[[_ E]|[[_ E]|[[_ E]|H]]]]];
    try (rewrite E; simpl; unfold carriage_return, backslash, dquote,
           letter_n, letter_t; intuition discriminate).
  destruct H as (_ & _ & _ & H4 & _ & E). rewrite E. simpl.
  intros [->|[]]. now apply H4.
Qed.

Lemma count_newline_escapes_step (c : char) (rest : str) :
  count_newline_escapes (escape_char c ++ rest)
  = if c =? newline then S (count_newline_escapes rest)
    else count_newline_escapes rest.
Proof.
  destruct (escape_char_cases c) as [[-> E]|[[-> E]|[[-> E]|[[-> E]|[[-> E]|H]]]]];
    try (rewrite E; reflexivity).
  destruct H as (H1 & _ & H3 & _ & _ & E). rewrite E. simpl.
  apply N.eqb_neq in H1, H3. now rewrite H1, H3.
Qed.

(** C3, as stated, fails: counting the places where a backslash is
    followed by n also counts the n that follows an escaped backslash. *)
Lemma newline_escape_count_counterexample :
  count_char newline [backslash; letter_n]
  <> count_at_positions [backslash; letter_n]
       (escape_for_c [backslash; letter_n]).
Proof. vm_compute. discriminate. Qed.

(** C3, amended. No carriage return of the input reaches the output
    (its image is empty, the output holds no carriage return, and removing
    the carriage returns from the input first changes nothing), and the
    number of newlines of the input is the number of newline escapes of
    the output when it is read left to right as a string literal, each
    backslash taking the character after it. Being a function, the
    escaper is deterministic. *)
Theorem escape_for_c_cr_and_newlines (content : str) :
  escape_char carriage_return = []
  /\ ~ In carriage_return (escape_for_c content)
  /\ escape_for_c
       (List.filter (fun c => negb (c =? carriage_return)) content)
     = escape_for_c content
  /\ count_char newline content
     = count_newline_escapes (escape_for_c content).
Proof.
  split; [reflexivity|]. split; [|split].
  - rewrite escape_for_c_flat_map. intros H.
    apply in_flat_map in H as (c & _ & H). now apply escape_char_no_cr in H.
  - induction content as [|c s IH]; [reflexivity|]. simpl.
    destruct (N.eqb_spec c carriage_return) as [->|Hc]; simpl.
    + rewrite IH. now rewrite (escape_for_c_cons carriage_return).
    + now rewrite !escape_for_c_cons, IH.
  - induction content as [|c s IH]; [reflexivity|].
    rewrite escape_for_c_cons, count_newline_escapes_step, <- IH.
    unfold count_char. cbn [List.filter]. rewrite (N.eqb_sym newline c).
    now destruct (c =? newline).
Qed.

End EscaperClaims.

Section Replace.

Lemma is_prefix_true (old s : str) :
  is_prefix old s = true <-> exists q, s = old ++ q.
Proof.
  revert s. induction old as [|o old IH]; intros s; simpl.
  - split; [intros _; now exists s | reflexivity].
  - destruct s as [|c s]; [split; [discriminate | intros [q Hq]; discriminate]|].
    rewrite andb_true_iff, N.eqb_eq, IH. split.
    + intros [-> [q ->]]. now exists q.
    + intros [q Hq]. injection Hq as -> ->. split; [reflexivity | now exists q].
Qed.

Lemma is_prefix_nil_r (old : str) : old <> [] -> is_prefix old [] = false.
Proof. now destruct old. Qed.

Lemma replace_go_skip (old new : str) (k : nat) (s : str) :
  replace_go old new k s = replace_go old new 0 (skipn k s).
Proof.
  revert k. induction s as [|c t IH]; intros [|k]; try reflexivity.
  simpl skipn. cbn [replace_go]. apply IH.
Qed.

Lemma replace_go_absent (old new s : str) :
  find old s = None -> replace_go old new 0 s = s.
Proof.
  induction s as [|c t IH]; [reflexivity|].
  cbn [find replace_go]. destruct (is_prefix old (c :: t)); [discriminate|].
  intros H. destruct (find old t); [discriminate|]. now rewrite IH.
Qed.

Lemma replace_go_found (old new s : str) (i : nat) :
  old <> [] -> find old s = Some i ->
  replace_go old new 0 s
  = firstn i s ++ new ++ replace_go old new 0 (skipn (i + length old) s).
Proof.
  intros Hold. revert i. induction s as [|c t IH]; intros i.
  - cbn [find]. now rewrite is_prefix_nil_r.
  - cbn [find replace_go].
    destruct (is_prefix old (c :: t)).
    + intros [= <-]. simpl firstn. rewrite replace_go_skip.
      destruct old as [|o old]; [contradiction|].
      simpl. now rewrite Nat.sub_0_r.
    + destruct (find old t) as [j|]; [|discriminate].
      intros [= <-]. simpl. now rewrite (IH j eq_refl).
Qed.

Lemma find_absent_nonempty (old s : str) : find old s = None -> old <> [].
Proof. intros H ->. now destruct s. Qed.

Lemma replace_absent (old new s : str) :
  find old s = None -> replace old new s = s.
Proof.
  intros H. pose proof (find_absent_nonempty _ _ H) as Hold.
  destruct old as [|o old]; [contradiction|].
  now apply replace_go_absent.
Qed.

Lemma replace_found (old new s : str) (i : nat) :
  old <> [] -> find old s = Some i ->
  replace old new s
  = firstn i s ++ new ++ replace old new (skipn (i + length old) s).
Proof.
  intros Hold H. destruct old as [|o old]; [contradiction|].
  now apply replace_go_found.
Qed.

(** What [find] returns: the place of an occurrence, and [None] exactly
    when there is none. *)
Lemma find_Some_split (old s : str) (i : nat) :
  find old s = Some i ->
  s = firstn i s ++ old ++ skipn (i + length old) s.
Proof.
  revert i. induction s as [|c t IH]; intros i; cbn [find].
  - destruct (is_prefix old []) eqn:E; [|discriminate].
    intros [= <-]. apply is_prefix_true in E as [q Hq].
    destruct old; [reflexivity | discriminate].
  - destruct (is_prefix old (c :: t)) eqn:E.
    + intros [= <-]. apply is_prefix_true in E as [q Hq].
      rewrite Hq. cbn [firstn Nat.add app].
      now rewrite skipn_app, skipn_all, Nat.sub_diag.
    + destruct (find old t) as [j|]; [|discriminate].
      intros [= <-]. simpl. f_equal. now apply IH.
Qed.

Lemma find_None_iff (old s : str) :
  find old s = None <-> ~ exists p q, s = p ++ old ++ q.
Proof.
  split.
  - induction s as [|c t IH]; cbn [find].
    + destruct (is_prefix old []) eqn:E; [discriminate|].
      intros _ (p & q & H). destruct p; [|discriminate].
      destruct old; discriminate.
    + destruct (is_prefix old (c :: t)) eqn:E; [discriminate|].
      destruct (find old t); [discriminate|].
      intros _ (p & q & H). destruct p as [|x p].
      * assert (is_prefix old (c :: t) = true) as E'
          by (apply is_prefix_true; now exists q).
        congruence.
      * injection H as _ H. apply IH; [reflexivity | now exists p, q].
  - intros H. destruct (find old s) as [i|] eqn:E; [|reflexivity].
    exfalso. apply H. apply find_Some_split in E. eauto.
Qed.

Lemma link_tag_nonempty : link_tag <> [].
Proof. discriminate. Qed.

Lemma script_tag_nonempty : script_tag <> [].
Proof. discriminate. Qed.

(** C1, as stated, fails: a second link tag is replaced too. *)
Lemma assemble_later_occurrence_counterexample :
  assemble (link_tag ++ link_tag) (lit "a{}") []
  <> assemble_first_only (link_tag ++ link_tag) (lit "a{}") [].
Proof. vm_compute. discriminate. Qed.

(** C1, amended. Each substitution replaces every occurrence of its tag,
    scanning left to right: the text before the first occurrence is kept,
    the occurrence becomes the style (script) block, and the text after
    it is substituted in the same way. *)
Theorem assemble_replaces_every_occurrence (html css js : str) (i : nat) :
  (find link_tag html = Some i ->
   inject_css css html
   = firstn i html ++ style_block css
     ++ inject_css css (skipn (i + length link_tag) html))
  /\ (find script_tag html = Some i ->
      inject_js js html
      = firstn i html ++ script_block js
        ++ inject_js js (skipn (i + length script_tag) html)).
Proof.
  split; intros H.
  - apply replace_found; [apply link_tag_nonempty | exact H].
  - apply replace_found; [apply script_tag_nonempty | exact H].
Qed.

Lemma assemble_replaces_every_occurrence_witness :
  inject_css (lit "a{}") (lit "<p>" ++ link_tag ++ link_tag)
  = lit "<p>" ++ style_block (lit "a{}") ++ inject_css (lit "a{}") link_tag
  /\ inject_js (lit "f()") (script_tag ++ lit "x" ++ script_tag)
     = [] ++ script_block (lit "f()")
       ++ inject_js (lit "f()") (lit "x" ++ script_tag).
Proof.
  split.
  - apply (proj1 (assemble_replaces_every_occurrence
             (lit "<p>" ++ link_tag ++ link_tag) (lit "a{}") [] 3)).
    vm_compute. reflexivity.
  - apply (proj2 (assemble_replaces_every_occurrence
             (script_tag ++ lit "x" ++ script_tag) [] (lit "f()") 0)).
    vm_compute. reflexivity.
Defined.

(** C8. A substitution whose tag does not occur in its input returns the
    input unchanged. *)
Theorem assemble_absent_tag_no_op (html css js : str) :
  (find link_tag html = None -> inject_css css html = html)
  /\ (find script_tag html = None -> inject_js js html = html).
Proof. split; apply replace_absent. Qed.

Lemma assemble_absent_tag_no_op_witness :
  inject_css (lit "a{}") (lit "<html></html>") = lit "<html></html>"
  /\ inject_js (lit "f()") (lit "<html></html>") = lit "<html></html>".
Proof.
  split.
  - apply (proj1 (assemble_absent_tag_no_op (lit "<html></html>")
                    (lit "a{}") (lit "f()"))).
    vm_compute. reflexivity.
  - apply (proj2 (assemble_absent_tag_no_op (lit "<html></html>")
                    (lit "a{}") (lit "f()"))).
    vm_compute. reflexivity.
Defined.

End Replace.

Section Lines.

Lemma lstrip_clean (s : str) : clean_head (lstrip s).
Proof.
  induction s as [|c t IH]; simpl; [exact I|].
  destruct (isspace c) eqn:E; [exact IH | exact E].
Qed.

Lemma lstrip_id (s : str) : clean_head s -> lstrip s = s.
Proof. destruct s as [|c t]; simpl; [reflexivity | now intros ->]. Qed.

Lemma lstrip_split (s : str) :
  exists w, s = w ++ lstrip s /\ Forall (fun c => isspace c = true) w.
Proof.
  induction s as [|c t (w & Hw & Hall)]; simpl.
  - now exists [].
  - destruct (isspace c) eqn:E.
    + exists (c :: w). split; [simpl; now f_equal | now constructor].
    + now exists [].
Qed.

Lemma lstrip_incl (s : str) (c : char) : In c (lstrip s) -> In c s.
Proof.
  destruct (lstrip_split s) as (w & Hw & _). intros H.
  rewrite Hw. apply in_or_app. now right.
Qed.

Lemma strip_incl (s : str) (c : char) : In c (strip s) -> In c s.
Proof.
  unfold strip, rstrip. intros H.
  apply in_rev, lstrip_incl, in_rev in H. now apply lstrip_incl.
Qed.

Lemma clean_head_app (a b : str) : a <> [] -> clean_head (a ++ b) -> clean_head a.
Proof. now destruct a. Qed.

Lemma clean_head_rev_lstrip_rev (t : str) :
  clean_head t -> clean_head (rev (lstrip (rev t))).
Proof.
  intros Ht. destruct (lstrip_split (rev t)) as (w & Hw & _).
  destruct (lstrip (rev t)) as [|x u] eqn:E; [exact I|].
  apply (f_equal (@rev char)) in Hw. rewrite rev_involutive, rev_app_distr in Hw.
  rewrite Hw in Ht. apply clean_head_app in Ht; [exact Ht|].
  simpl. now destruct (rev u).
Qed.

Lemma strip_fixed (t : str) :
  clean_head t -> clean_head (rev t) -> strip t = t.
Proof.
  intros H1 H2. unfold strip, rstrip.
  now rewrite (lstrip_id t H1), (lstrip_id _ H2), rev_involutive.
Qed.

Lemma strip_idempotent (s : str) : strip (strip s) = strip s.
Proof.
  apply strip_fixed.
  - unfold strip, rstrip. apply clean_head_rev_lstrip_rev, lstrip_clean.
  - unfold strip, rstrip. rewrite rev_involutive. apply lstrip_clean.
Qed.

Lemma split_nonempty (sep : char) (s : str) : split sep s <> [].
Proof.
  induction s as [|c t IH]; simpl; [discriminate|].
  destruct (c =? sep); [discriminate|]. now destruct (split sep t).
Qed.

Lemma split_no_sep (sep : char) (s : str) :
  Forall (fun l => ~ In sep l) (split sep s).
Proof.
  induction s as [|c t IH]; simpl.
  - constructor; [intros [] | constructor].
  - destruct (N.eqb_spec c sep) as [->|Hc].
    + constructor; [intros [] | exact IH].
    + destruct (split sep t) as [|l ls].
      * constructor; [|constructor]. intros [H|[]]. now apply Hc.
      * inversion IH as [|? ? Hl Hls]; subst.
        constructor; [|exact Hls]. intros [H|H]; [now apply Hc | now apply Hl].
Qed.

Lemma split_without_sep (sep : char) (x : str) :
  ~ In sep x -> split sep x = [x].
Proof.
  induction x as [|c t IH]; intros H; simpl; [reflexivity|].
  destruct (N.eqb_spec c sep) as [->|Hc]; [exfalso; apply H; now left|].
  rewrite IH; [reflexivity | intros Hin; apply H; now right].
Qed.

Lemma split_app_sep (sep : char) (x rest : str) :
  ~ In sep x -> split sep (x ++ sep :: rest) = x :: split sep rest.
Proof.
  induction x as [|c t IH]; intros H; simpl.
  - now rewrite N.eqb_refl.
  - destruct (N.eqb_spec c sep) as [->|Hc]; [exfalso; apply H; now left|].
    rewrite IH; [reflexivity | intros Hin; apply H; now right].
Qed.

Lemma split_join (sep : char) (pieces : list str) :
  pieces <> [] -> Forall (fun l => ~ In sep l) pieces ->
  split sep (join [sep] pieces) = pieces.
Proof.
  induction pieces as [|x rest IH]; [contradiction|].
  intros _ Hall. inversion Hall as [|? ? Hx Hrest]; subst.
  destruct rest as [|y rest'].
  - simpl. now apply split_without_sep.
  - cbn [join]. cbn [app]. rewrite split_app_sep by exact Hx.
    f_equal. apply IH; [discriminate | exact Hrest].
Qed.

Lemma minify_js_fold (lines acc : list str) :
  fold_left minify_js_step lines acc
  = acc ++ List.filter truthy (map strip lines).
Proof.
  revert acc. induction lines as [|l ls IH]; intros acc; simpl.
  - now rewrite app_nil_r.
  - rewrite IH. unfold minify_js_step.
    destruct (truthy (strip l)); [now rewrite <- app_assoc | reflexivity].
Qed.

Lemma minify_js_join (content : str) :
  minify_js content = join [newline] (trimmed_nonempty_lines content).
Proof. unfold minify_js. now rewrite minify_js_fold. Qed.

Lemma trimmed_nonempty_lines_settled (content : str) :
  Forall settled (trimmed_nonempty_lines content).
Proof.
  unfold trimmed_nonempty_lines. apply List.Forall_forall. intros x Hx.
  apply filter_In in Hx as [Hx Ht]. apply in_map_iff in Hx as (l & <- & Hl).
  repeat split; [exact Ht | apply strip_idempotent |].
  intros Hin. apply strip_incl in Hin.
  pose proof (split_no_sep newline content) as Hall.
  rewrite List.Forall_forall in Hall. now apply (Hall l Hl).
Qed.

Lemma settled_lines_fixed (pieces : list str) :
  Forall settled pieces ->
  List.filter truthy (map strip pieces) = pieces.
Proof.
  induction 1 as [|x rest (Ht & Hs & _) _ IH]; [reflexivity|].
  simpl. now rewrite Hs, Ht, IH.
Qed.

Lemma split_minify_js (content : str) :
  split newline (minify_js content)
  = match trimmed_nonempty_lines content with
    | [] => [[]]
    | l :: ls => l :: ls
    end.
Proof.
  rewrite minify_js_join.
  pose proof (trimmed_nonempty_lines_settled content) as Hall.
  destruct (trimmed_nonempty_lines content) as [|l ls] eqn:E; [reflexivity|].
  apply split_join; [discriminate|].
  eapply List.Forall_impl; [|exact Hall]. now intros a (_ & _ & H).
Qed.

Lemma trimmed_lines_minify_js (content : str) :
  trimmed_nonempty_lines (minify_js content)
  = trimmed_nonempty_lines content.
Proof.
  unfold trimmed_nonempty_lines at 1. rewrite split_minify_js.
  pose proof (trimmed_nonempty_lines_settled content) as Hall.
  destruct (trimmed_nonempty_lines content) as [|l ls]; [reflexivity|].
  now apply settled_lines_fixed.
Qed.


(** C10. Normalising a normalised script changes nothing. *)
Theorem minify_js_idempotent (s : str) :
  minify_js (minify_js s) = minify_js s.
Proof.
  rewrite (minify_js_join (minify_js s)), trimmed_lines_minify_js.
  symmetry. apply minify_js_join.
Qed.

End Lines.

Section Run.

Lemma write_after (path : string) (old text : str) (m : gmap string str)
    (out : list str) :
  write path text (World (<[path := old]> m) out)
  = (Done tt, World (<[path := old ++ text]> m) out).
Proof.
  unfold write. cbn [files stdout].
  now rewrite lookup_insert_eq, insert_insert_eq.
Qed.

Lemma write_header_run (e : str) (w : world) :
  write_header e w
  = (Done tt, World (<[header_path := header_text e]> (files w)) (stdout w)).
Proof.
  unfold write_header, bind, open_for_writing.
  repeat rewrite write_after.
  do 3 f_equal. unfold header_text.
  repeat rewrite <- app_assoc. reflexivity.
Qed.

Lemma main_success (w : world) (html css js : str) :
  files w !! html_path = Some html ->
  files w !! css_path = Some css ->
  files w !! js_path = Some js ->
  let escaped := escape_for_c (assemble html (minify_css css) (minify_js js)) in
  main w
  = (Done tt,
     World (<[header_path := header_text escaped]> (files w))
       (stdout w
        ++ [lit "WebContent.h regenerated successfully!";
            lit "Total size: " ++ decimal (length escaped) ++ lit " chars"])).
Proof.
  intros Hh Hc Hj escaped. unfold main, bind, read_text.
  rewrite Hh, Hc, Hj. fold (assemble html (minify_css css) (minify_js js)).
  fold escaped. rewrite write_header_run. unfold print. cbn [files stdout].
  now rewrite <- app_assoc.
Qed.



(** C6. When one of the three input files cannot be read, the run ends
    with the error raised by that read and the world is as it was: the
    header file has been neither opened nor written and nothing has been
    printed. *)
Theorem main_aborts_on_unreadable_input (w : world) :
  files w !! html_path = None \/ files w !! css_path = None
  \/ files w !! js_path = None ->
  exists path : string,
    main w = (Raised (FileAccessError path), w)
    /\ files w !! path = None.
Proof.
  intros H. unfold main, bind, read_text.
  destruct (files w !! html_path) as [html|] eqn:Hh; [|now exists html_path].
  destruct (files w !! css_path) as [css|] eqn:Hc; [|now exists css_path].
  destruct (files w !! js_path) as [js|] eqn:Hj; [|now exists js_path].
  destruct H as [H|[H|H]]; discriminate.
Qed.

Lemma main_aborts_on_unreadable_input_witness :
  exists path : string,
    main world_without_script
    = (Raised (FileAccessError path), world_without_script)
    /\ files world_without_script !! path = None.
Proof.
  apply main_aborts_on_unreadable_input.
  right; right. vm_compute. reflexivity.
Defined.

End Run.

(** ** The three patterns, read off directly *)

Section Patterns.

Lemma length_tail_ltb (c : char) (t : str) :
  (length t <? length (c :: t))%nat = true.
Proof. apply Nat.ltb_lt. simpl. lia. Qed.

Lemma isspace_not_special (c : char) : isspace c = true -> is_special c = false.
Proof.
  intros H. destruct (is_special c) eqn:E; [|reflexivity].
  unfold is_special in E.
  repeat (apply orb_true_iff in E as [E|E]);
    apply N.eqb_eq in E; subst c; discriminate H.
Qed.

(** The greedy whitespace loop takes the whole run, provided what follows
    either accepts there or never accepts after a whitespace. *)
Lemma greedy_whitespace (k : continuation) (fuel : nat) (s : str)
    (g : option str) :
  (length s <= fuel)%nat ->
  k (lstrip s) g <> None
  \/ (forall c t, isspace c = true -> k (c :: t) g = None) ->
  greedy_loop (run (Class isspace)) k fuel s g = k (lstrip s) g.
Proof.
  revert s. induction fuel as [|fuel IH]; intros s Hlen Hk.
  - destruct s; [reflexivity | simpl in Hlen; lia].
  - destruct s as [|c t]; [reflexivity|].
    cbn [greedy_loop run lstrip]. destruct (isspace c) eqn:Hc; [|reflexivity].
    rewrite length_tail_ltb.
    assert (Hk' : k (lstrip t) g <> None
                  \/ (forall c t, isspace c = true -> k (c :: t) g = None)).
    { destruct Hk as [Hk|Hk]; [left | now right].
      cbn [lstrip] in Hk. now rewrite Hc in Hk. }
    rewrite IH by (simpl in Hlen; lia || exact Hk').
    destruct (k (lstrip t) g) eqn:E; [reflexivity|].
    destruct Hk' as [Hk'|Hk']; [contradiction | now apply Hk'].
Qed.

Lemma spaces_re_match (s : str) :
  re_match spaces_re s
  = match s with
    | c :: t => if isspace c then Some (lstrip t, None) else None
    | [] => None
    end.
Proof.
  destruct s as [|c t]; [reflexivity|].
  unfold re_match, spaces_re, Plus. cbn [run].
  destruct (isspace c); [|reflexivity].
  rewrite greedy_whitespace; [reflexivity | lia | left; discriminate].
Qed.

Lemma around_special_re_match (s : str) :
  re_match around_special_re s
  = match lstrip s with
    | x :: t => if is_special x then Some (lstrip t, Some [x]) else None
    | [] => None
    end.
Proof.
  unfold re_match, around_special_re. cbn [run].
  rewrite greedy_whitespace; [| lia |].
  - destruct (lstrip s) as [|x t]; [reflexivity|].
    destruct (is_special x); [|reflexivity].
    rewrite greedy_whitespace; [| lia | left; discriminate].
    do 3 f_equal. cbn [length].
    replace (S (length t) - length t)%nat with 1%nat by lia. reflexivity.
  - right. intros c t Hc. now rewrite (isspace_not_special c Hc).
Qed.

Lemma lazy_any_close (fuel : nat) (s : str) (g : option str) :
  (length s <= fuel)%nat ->
  lazy_loop (run AnyChar)
    (fun s' g' => run (Seq (Lit asterisk) (Lit slash)) s' g' final) fuel s g
  = option_map (fun rest => (rest, g)) (after_close s).
Proof.
  revert s. induction fuel as [|fuel IH]; intros s Hlen.
  - destruct s; [reflexivity | simpl in Hlen; lia].
  - destruct s as [|c t]; [reflexivity|].
    cbn [lazy_loop run after_close].
    rewrite length_tail_ltb, IH by (simpl in Hlen; lia).
    destruct t as [|d u].
    + now destruct (c =? asterisk).
    + destruct (c =? asterisk); [|reflexivity].
      now destruct (d =? slash).
Qed.

Lemma comment_re_match (s : str) :
  re_match comment_re s
  = match s with
    | c :: d :: t =>
        if (c =? slash) && (d =? asterisk)
        then option_map (fun rest => (rest, None)) (after_close t)
        else None
    | _ => None
    end.
Proof.
  unfold re_match, comment_re. cbn [run].
  destruct s as [|c [|d t]]; [reflexivity | now destruct (c =? slash) |].
  destruct (c =? slash); [|reflexivity].
  destruct (d =? asterisk); [|reflexivity].
  cbn [andb]. now apply lazy_any_close.
Qed.

Lemma after_close_split (s rest : str) :
  after_close s = Some rest ->
  exists body, s = body ++ [asterisk; slash] ++ rest.
Proof.
  induction s as [|c t IH]; [discriminate|]. cbn [after_close].
  destruct t as [|d u]; [discriminate|].
  destruct ((c =? asterisk) && (d =? slash)) eqn:E.
  - apply andb_true_iff in E as [E1 E2].
    apply N.eqb_eq in E1, E2. subst. intros [= ->]. now exists [].
  - intros H. destruct (IH H) as [body Hb]. exists (c :: body).
    simpl. now rewrite Hb.
Qed.

(** No match of the three patterns is empty. *)
Lemma comment_re_consumes (s rest : str) (g : option str) :
  re_match comment_re s = Some (rest, g) -> (length rest < length s)%nat.
Proof.
  rewrite comment_re_match. destruct s as [|c [|d t]]; try discriminate.
  destruct ((c =? slash) && (d =? asterisk)); [|discriminate].
  destruct (after_close t) as [r|] eqn:E; [|discriminate].
  intros [= <- _]. apply after_close_split in E as [body ->].
  simpl. rewrite length_app. simpl. lia.
Qed.

Lemma lstrip_length (s : str) : (length (lstrip s) <= length s)%nat.
Proof.
  destruct (lstrip_split s) as (w & Hw & _).
  rewrite Hw at 2. rewrite length_app. lia.
Qed.

Lemma spaces_re_consumes (s rest : str) (g : option str) :
  re_match spaces_re s = Some (rest, g) -> (length rest < length s)%nat.
Proof.
  rewrite spaces_re_match. destruct s as [|c t]; [discriminate|].
  destruct (isspace c); [|discriminate]. intros [= <- _].
  pose proof (lstrip_length t). simpl. lia.
Qed.

Lemma around_special_re_consumes (s rest : str) (g : option str) :
  re_match around_special_re s = Some (rest, g) ->
  (length rest < length s)%nat.
Proof.
  rewrite around_special_re_match. pose proof (lstrip_length s) as H.
  destruct (lstrip s) as [|x t]; [discriminate|].
  destruct (is_special x); [|discriminate]. intros [= <- _].
  pose proof (lstrip_length t). simpl in H. lia.
Qed.

End Patterns.

(** ** Substitution, one match at a time *)

Section Substitution.

Variable r : regex.
Variable repl : option str -> str.

Lemma re_sub_go_skip (k : nat) (s : str) :
  re_sub_go r repl k s = re_sub_go r repl 0 (skipn k s).
Proof.
  revert k. induction s as [|c t IH]; intros [|k]; try reflexivity.
  simpl skipn. cbn [re_sub_go]. apply IH.
Qed.

Lemma re_sub_matched (m rest : str) (g : option str) :
  m <> [] -> re_match r (m ++ rest) = Some (rest, g) ->
  re_sub r repl (m ++ rest) = repl g ++ re_sub r repl rest.
Proof.
  intros Hm H. destruct m as [|c m]; [contradiction|].
  unfold re_sub. simpl app in *. cbn [re_sub_go]. rewrite H.
  replace (length (c :: m ++ rest) - length rest)%nat with (S (length m))
    by (simpl; rewrite length_app; lia).
  rewrite re_sub_go_skip, skipn_app, skipn_all, Nat.sub_diag. reflexivity.
Qed.

Lemma re_sub_copied (c : char) (t : str) :
  re_match r (c :: t) = None ->
  re_sub r repl (c :: t) = c :: re_sub r repl t.
Proof. intros H. unfold re_sub. cbn [re_sub_go]. now rewrite H. Qed.

Lemma re_sub_nil : re_sub r repl [] = [].
Proof. reflexivity. Qed.

End Substitution.

Section Steps.

Lemma remove_comments_nil : remove_comments [] = [].
Proof. reflexivity. Qed.

Lemma remove_comments_comment (t rest : str) :
  after_close t = Some rest ->
  remove_comments (slash :: asterisk :: t) = remove_comments rest.
Proof.
  intros H. destruct (after_close_split t rest H) as [body Hb].
  unfold remove_comments.
  replace (slash :: asterisk :: t)
    with ((slash :: asterisk :: body ++ [asterisk; slash]) ++ rest)
    by (rewrite Hb; simpl; now rewrite <- app_assoc).
  rewrite (re_sub_matched _ _ _ rest None); [reflexivity | discriminate |].
  rewrite comment_re_match. simpl app.
  rewrite <- app_assoc, <- Hb, H. reflexivity.
Qed.

Lemma remove_comments_copy (c : char) (t : str) :
  re_match comment_re (c :: t) = None ->
  remove_comments (c :: t) = c :: remove_comments t.
Proof. apply re_sub_copied. Qed.

Lemma collapse_whitespace_nil : collapse_whitespace [] = [].
Proof. reflexivity. Qed.

Lemma collapse_whitespace_run (c : char) (t : str) :
  isspace c = true ->
  collapse_whitespace (c :: t) = space :: collapse_whitespace (lstrip t).
Proof.
  intros Hc. destruct (lstrip_split t) as (w & Hw & _).
  unfold collapse_whitespace.
  replace (c :: t) with ((c :: w) ++ lstrip t) by (simpl; now rewrite <- Hw).
  rewrite (re_sub_matched _ _ _ (lstrip t) None); [reflexivity | discriminate |].
  rewrite spaces_re_match. cbn [app]. now rewrite Hc, <- Hw.
Qed.

Lemma collapse_whitespace_copy (c : char) (t : str) :
  isspace c = false ->
  collapse_whitespace (c :: t) = c :: collapse_whitespace t.
Proof.
  intros Hc. apply re_sub_copied. rewrite spaces_re_match. now rewrite Hc.
Qed.

Lemma tighten_specials_nil : tighten_specials [] = [].
Proof. reflexivity. Qed.

Lemma tighten_specials_special (s t : str) (x : char) :
  lstrip s = x :: t -> is_special x = true ->
  tighten_specials s = x :: tighten_specials (lstrip t).
Proof.
  intros Hs Hx. destruct (lstrip_split s) as (w & Hw & _).
  destruct (lstrip_split t) as (w' & Hw' & _).
  unfold tighten_specials.
  assert (s = (w ++ x :: w') ++ lstrip t) as E.
  { rewrite <- app_assoc. simpl. now rewrite <- Hw', <- Hs. }
  rewrite E at 1.
  rewrite (re_sub_matched _ _ _ (lstrip t) (Some [x])); [reflexivity | |].
  - now destruct w.
  - rewrite <- E, around_special_re_match, Hs, Hx. reflexivity.
Qed.

Lemma tighten_specials_copy (c : char) (t : str) :
  match lstrip (c :: t) with
  | x :: _ => is_special x = false
  | [] => True
  end ->
  tighten_specials (c :: t) = c :: tighten_specials t.
Proof.
  intros H. apply re_sub_copied. rewrite around_special_re_match.
  destruct (lstrip (c :: t)) as [|x u]; [reflexivity | now rewrite H].
Qed.

End Steps.

(** ** Comment spans and whitespace runs, one character at a time *)

Section Shapes.

Lemma str_length_ind (P : str -> Prop) :
  (forall s, (forall u, (length u < length s)%nat -> P u) -> P s) ->
  forall s, P s.
Proof.
  intros H s. remember (length s) as n eqn:E. revert s E.
  induction n as [n IH] using lt_wf_ind. intros s ->.
  apply H. intros u Hu. now apply (IH (length u) Hu).
Qed.

Lemma isspace_neq (c x : char) : isspace c = true -> isspace x = false -> (c =? x) = false.
Proof. intros Hc Hx. apply N.eqb_neq. intros ->. congruence. Qed.

Lemma special_neq (c x : char) :
  is_special c = true -> is_special x = false -> (c =? x) = false.
Proof. intros Hc Hx. apply N.eqb_neq. intros ->. congruence. Qed.

Lemma special_not_space (c : char) : is_special c = true -> isspace c = false.
Proof.
  intros H. destruct (isspace c) eqn:E; [|reflexivity].
  apply isspace_not_special in E. congruence.
Qed.

Lemma closes_cons (c : char) (t : str) :
  closes (c :: t) = ((c =? asterisk) && starts_with slash t) || closes t.
Proof.
  unfold closes. cbn [after_close]. destruct t as [|d u].
  - cbn. now rewrite andb_false_r.
  - cbn [starts_with]. now destruct ((c =? asterisk) && (d =? slash)).
Qed.

Lemma closes_nil : closes [] = false.
Proof. reflexivity. Qed.

Lemma comment_re_no_match (s : str) :
  re_match comment_re s = None <-> opens_comment s = false.
Proof.
  rewrite comment_re_match. destruct s as [|c [|d t]]; cbn.
  - tauto.
  - rewrite andb_false_r. tauto.
  - unfold closes. destruct (c =? slash), (d =? asterisk); cbn; try tauto.
    destruct (after_close t); cbn; split; congruence.
Qed.

Lemma has_comment_span_cons (c : char) (t : str) :
  has_comment_span (c :: t) = opens_comment (c :: t) || has_comment_span t.
Proof.
  cbn [has_comment_span].
  destruct (opens_comment (c :: t)) eqn:E.
  - destruct (re_match comment_re (c :: t)) eqn:M; [reflexivity|].
    apply comment_re_no_match in M. congruence.
  - apply comment_re_no_match in E. now rewrite E.
Qed.

Lemma has_comment_span_nil : has_comment_span [] = false.
Proof. reflexivity. Qed.

Lemma has_whitespace_run_cons (c : char) (t : str) :
  has_whitespace_run (c :: t)
  = (isspace c && starts_with_space t) || has_whitespace_run t.
Proof.
  cbn [has_whitespace_run]. destruct t; [|reflexivity].
  cbn. now rewrite andb_false_r.
Qed.

Lemma opens_comment_cons (c : char) (t : str) :
  opens_comment (c :: t) = (c =? slash) && opens_after_slash t.
Proof. reflexivity. Qed.

(** Dropping leading whitespace changes none of these. *)
Lemma closes_space (c : char) (t : str) :
  isspace c = true -> closes (c :: t) = closes t.
Proof.
  intros Hc. rewrite closes_cons.
  now rewrite (isspace_neq c asterisk Hc eq_refl).
Qed.

Lemma span_space (c : char) (t : str) :
  isspace c = true -> has_comment_span (c :: t) = has_comment_span t.
Proof.
  intros Hc. rewrite has_comment_span_cons, opens_comment_cons.
  now rewrite (isspace_neq c slash Hc eq_refl).
Qed.

Lemma closes_lstrip (s : str) : closes (lstrip s) = closes s.
Proof.
  induction s as [|c t IH]; [reflexivity|]. cbn [lstrip].
  destruct (isspace c) eqn:Hc; [|reflexivity]. now rewrite closes_space.
Qed.

Lemma span_lstrip (s : str) : has_comment_span (lstrip s) = has_comment_span s.
Proof.
  induction s as [|c t IH]; [reflexivity|]. cbn [lstrip].
  destruct (isspace c) eqn:Hc; [|reflexivity]. now rewrite span_space.
Qed.

Lemma non_whitespace_cons (c : char) (t : str) :
  non_whitespace (c :: t)
  = if isspace c then non_whitespace t else c :: non_whitespace t.
Proof. unfold non_whitespace. cbn [List.filter]. now destruct (isspace c). Qed.

Lemma non_whitespace_lstrip (s : str) :
  non_whitespace (lstrip s) = non_whitespace s.
Proof.
  induction s as [|c t IH]; [reflexivity|]. cbn [lstrip].
  destruct (isspace c) eqn:Hc; [|reflexivity].
  now rewrite non_whitespace_cons, Hc.
Qed.

Lemma lstrip_shorter (c : char) (t : str) :
  (length (lstrip t) < length (c :: t))%nat.
Proof. pose proof (lstrip_length t). simpl. lia. Qed.

End Shapes.

(** ** What each step of [minify_css] keeps *)

Section Collapse.

Lemma starts_with_collapse (x : char) (t : str) :
  isspace x = false ->
  starts_with x (collapse_whitespace t) = starts_with x t.
Proof.
  intros Hx. destruct t as [|d u]; [reflexivity|].
  destruct (isspace d) eqn:Hd.
  - rewrite collapse_whitespace_run by exact Hd. cbn [starts_with].
    now rewrite (isspace_neq space x eq_refl Hx), (isspace_neq d x Hd Hx).
  - now rewrite collapse_whitespace_copy by exact Hd.
Qed.

Lemma starts_with_space_collapse (t : str) :
  starts_with_space (collapse_whitespace t) = starts_with_space t.
Proof.
  destruct t as [|d u]; [reflexivity|]. destruct (isspace d) eqn:Hd.
  - rewrite collapse_whitespace_run by exact Hd. cbn. now rewrite Hd.
  - now rewrite collapse_whitespace_copy by exact Hd.
Qed.

Lemma starts_with_space_lstrip (t : str) : starts_with_space (lstrip t) = false.
Proof.
  pose proof (lstrip_clean t) as H. now destruct (lstrip t).
Qed.

Lemma non_whitespace_collapse (s : str) :
  non_whitespace (collapse_whitespace s) = non_whitespace s.
Proof.
  induction s as [s IH] using str_length_ind.
  destruct s as [|c t]; [reflexivity|]. destruct (isspace c) eqn:Hc.
  - rewrite collapse_whitespace_run by exact Hc.
    rewrite !non_whitespace_cons, Hc. change (isspace space) with true.
    cbv iota. rewrite IH by apply lstrip_shorter.
    apply non_whitespace_lstrip.
  - rewrite collapse_whitespace_copy by exact Hc.
    rewrite !non_whitespace_cons, Hc. f_equal. apply IH. simpl. lia.
Qed.

Lemma no_run_collapse (s : str) :
  has_whitespace_run (collapse_whitespace s) = false.
Proof.
  induction s as [s IH] using str_length_ind.
  destruct s as [|c t]; [reflexivity|]. destruct (isspace c) eqn:Hc.
  - rewrite collapse_whitespace_run by exact Hc.
    rewrite has_whitespace_run_cons, starts_with_space_collapse,
      starts_with_space_lstrip, andb_false_r.
    apply IH, lstrip_shorter.
  - rewrite collapse_whitespace_copy by exact Hc.
    rewrite has_whitespace_run_cons, Hc. apply IH. simpl. lia.
Qed.

Lemma closes_collapse (s : str) : closes (collapse_whitespace s) = closes s.
Proof.
  induction s as [s IH] using str_length_ind.
  destruct s as [|c t]; [reflexivity|]. destruct (isspace c) eqn:Hc.
  - rewrite collapse_whitespace_run by exact Hc.
    rewrite (closes_space space) by reflexivity.
    rewrite (closes_space c) by exact Hc.
    rewrite IH by apply lstrip_shorter. apply closes_lstrip.
  - rewrite collapse_whitespace_copy by exact Hc.
    rewrite !closes_cons, starts_with_collapse by reflexivity.
    f_equal. apply IH. simpl. lia.
Qed.

Lemma opens_after_slash_collapse (t : str) :
  opens_after_slash (collapse_whitespace t) = opens_after_slash t.
Proof.
  destruct t as [|d u]; [reflexivity|]. destruct (isspace d) eqn:Hd.
  - rewrite collapse_whitespace_run by exact Hd. cbn [opens_after_slash].
    now rewrite (isspace_neq space asterisk eq_refl eq_refl),
      (isspace_neq d asterisk Hd eq_refl).
  - rewrite collapse_whitespace_copy by exact Hd. cbn [opens_after_slash].
    now rewrite closes_collapse.
Qed.

Lemma span_collapse (s : str) :
  has_comment_span (collapse_whitespace s) = has_comment_span s.
Proof.
  induction s as [s IH] using str_length_ind.
  destruct s as [|c t]; [reflexivity|]. destruct (isspace c) eqn:Hc.
  - rewrite collapse_whitespace_run by exact Hc.
    rewrite (span_space space) by reflexivity.
    rewrite (span_space c) by exact Hc.
    rewrite IH by apply lstrip_shorter. apply span_lstrip.
  - rewrite collapse_whitespace_copy by exact Hc.
    rewrite !has_comment_span_cons, !opens_comment_cons,
      opens_after_slash_collapse.
    f_equal. apply IH. simpl. lia.
Qed.

End Collapse.

Section Tighten.

Lemma lstrip_nonspace (c : char) (t : str) :
  isspace c = false -> lstrip (c :: t) = c :: t.
Proof. intros H. cbn [lstrip]. now rewrite H. Qed.

Lemma lstrip_space (c : char) (t : str) :
  isspace c = true -> lstrip (c :: t) = lstrip t.
Proof. intros H. cbn [lstrip]. now rewrite H. Qed.

Lemma tighten_at_special (c : char) (t : str) :
  is_special c = true ->
  tighten_specials (c :: t) = c :: tighten_specials (lstrip t).
Proof.
  intros Hc. apply tighten_specials_special; [|exact Hc].
  apply lstrip_nonspace, special_not_space, Hc.
Qed.

Lemma tighten_at_plain (c : char) (t : str) :
  isspace c = false -> is_special c = false ->
  tighten_specials (c :: t) = c :: tighten_specials t.
Proof.
  intros Hs Hc. apply tighten_specials_copy.
  now rewrite lstrip_nonspace.
Qed.

Lemma tighten_before_special (c : char) (t : str) :
  isspace c = true -> starts_with_special (lstrip t) = true ->
  tighten_specials (c :: t) = tighten_specials (lstrip t).
Proof.
  intros Hc Hs. destruct (lstrip t) as [|x t'] eqn:E; [discriminate|].
  cbn in Hs. rewrite (tighten_at_special x t' Hs).
  apply tighten_specials_special; [|exact Hs].
  now rewrite lstrip_space.
Qed.

Lemma tighten_at_space (c : char) (t : str) :
  isspace c = true -> starts_with_special (lstrip t) = false ->
  tighten_specials (c :: t) = c :: tighten_specials t.
Proof.
  intros Hc Hs. apply tighten_specials_copy.
  rewrite lstrip_space by exact Hc.
  now destruct (lstrip t).
Qed.

(** The four cases of one step of the scan. *)
Lemma tighten_cases (c : char) (t : str) :
  (is_special c = true
   /\ tighten_specials (c :: t) = c :: tighten_specials (lstrip t))
  \/ (isspace c = false /\ is_special c = false
      /\ tighten_specials (c :: t) = c :: tighten_specials t)
  \/ (isspace c = true /\ starts_with_special (lstrip t) = true
      /\ tighten_specials (c :: t) = tighten_specials (lstrip t))
  \/ (isspace c = true /\ starts_with_special (lstrip t) = false
      /\ tighten_specials (c :: t) = c :: tighten_specials t).
Proof.
  destruct (is_special c) eqn:Hc.
  - left. split; [reflexivity | now apply tighten_at_special].
  - destruct (isspace c) eqn:Hs.
    + destruct (starts_with_special (lstrip t)) eqn:E.
      * right; right; left. repeat split. now apply tighten_before_special.
      * right; right; right. repeat split. now apply tighten_at_space.
    + right; left. repeat split. now apply tighten_at_plain.
Qed.

(** The first character of the output: the first character of the input
    when that is not whitespace. *)
Lemma tighten_head (d : char) (u : str) :
  isspace d = false ->
  exists rest, tighten_specials (d :: u) = d :: rest.
Proof.
  intros Hd.
  destruct (tighten_cases d u) as [[_ E]|[(_ & _ & E)|[(H & _)|(H & _)]]];
    try congruence; rewrite E; eauto.
Qed.

Lemma starts_with_tighten (x : char) (t : str) :
  isspace x = false -> is_special x = false ->
  starts_with x (tighten_specials t) = starts_with x t.
Proof.
  intros Hx Hsx. destruct t as [|d u]; [reflexivity|].
  destruct (tighten_cases d u) as [[_ E]|[(_ & _ & E)|[(Hd & Hs & E)|(_ & _ & E)]]];
    rewrite E; try reflexivity.
  cbn [starts_with]. rewrite (isspace_neq d x Hd Hx).
  destruct (lstrip u) as [|y u'] eqn:El; [discriminate|]. cbn in Hs.
  rewrite (tighten_at_special y u' Hs). cbn [starts_with].
  apply special_neq; assumption.
Qed.

Lemma starts_with_space_tighten (t : str) :
  starts_with_space t = false ->
  starts_with_space (tighten_specials t) = false.
Proof.
  destruct t as [|d u]; [reflexivity|]. cbn [starts_with_space]. intros Hd.
  destruct (tighten_head d u Hd) as [rest ->]. exact Hd.
Qed.

Lemma non_whitespace_tighten (s : str) :
  non_whitespace (tighten_specials s) = non_whitespace s.
Proof.
  induction s as [s IH] using str_length_ind.
  destruct s as [|c t]; [reflexivity|].
  destruct (tighten_cases c t)
    as [[Hc E]|[(Hs & Hc & E)|[(Hs & Hl & E)|(Hs & Hl & E)]]]; rewrite E.
  - rewrite !non_whitespace_cons, (special_not_space c Hc).
    rewrite IH by apply lstrip_shorter. now rewrite non_whitespace_lstrip.
  - rewrite !non_whitespace_cons, Hs. f_equal. apply IH. simpl. lia.
  - rewrite IH by apply lstrip_shorter.
    now rewrite non_whitespace_lstrip, non_whitespace_cons, Hs.
  - rewrite !non_whitespace_cons, Hs. apply IH. simpl. lia.
Qed.

Lemma closes_special (c : char) (t : str) :
  is_special c = true -> closes (c :: t) = closes t.
Proof.
  intros Hc. rewrite closes_cons.
  now rewrite (special_neq c asterisk Hc eq_refl).
Qed.

Lemma span_special (c : char) (t : str) :
  is_special c = true -> has_comment_span (c :: t) = has_comment_span t.
Proof.
  intros Hc. rewrite has_comment_span_cons, opens_comment_cons.
  now rewrite (special_neq c slash Hc eq_refl).
Qed.

Lemma closes_tighten (s : str) : closes (tighten_specials s) = closes s.
Proof.
  induction s as [s IH] using str_length_ind.
  destruct s as [|c t]; [reflexivity|].
  destruct (tighten_cases c t)
    as [[Hc E]|[(Hs & Hc & E)|[(Hs & Hl & E)|(Hs & Hl & E)]]]; rewrite E.
  - rewrite !closes_special by exact Hc.
    rewrite IH by apply lstrip_shorter. apply closes_lstrip.
  - rewrite !closes_cons, starts_with_tighten by reflexivity.
    f_equal. apply IH. simpl. lia.
  - rewrite IH by apply lstrip_shorter.
    now rewrite closes_lstrip, closes_space.
  - rewrite !closes_space by exact Hs. apply IH. simpl. lia.
Qed.

Lemma opens_after_slash_tighten (t : str) :
  opens_after_slash (tighten_specials t) = opens_after_slash t.
Proof.
  destruct t as [|d u]; [reflexivity|].
  destruct (tighten_cases d u)
    as [[Hc E]|[(Hs & Hc & E)|[(Hs & Hl & E)|(Hs & Hl & E)]]]; rewrite E;
    cbn [opens_after_slash].
  - now rewrite (special_neq d asterisk Hc eq_refl).
  - now rewrite closes_tighten.
  - rewrite (isspace_neq d asterisk Hs eq_refl).
    destruct (lstrip u) as [|y u'] eqn:El; [discriminate|]. cbn in Hl.
    rewrite (tighten_at_special y u' Hl). cbn [opens_after_slash].
    now rewrite (special_neq y asterisk Hl eq_refl).
  - now rewrite (isspace_neq d asterisk Hs eq_refl).
Qed.

Lemma span_tighten (s : str) :
  has_comment_span (tighten_specials s) = has_comment_span s.
Proof.
  induction s as [s IH] using str_length_ind.
  destruct s as [|c t]; [reflexivity|].
  destruct (tighten_cases c t)
    as [[Hc E]|[(Hs & Hc & E)|[(Hs & Hl & E)|(Hs & Hl & E)]]]; rewrite E.
  - rewrite !span_special by exact Hc.
    rewrite IH by apply lstrip_shorter. apply span_lstrip.
  - rewrite !has_comment_span_cons, !opens_comment_cons,
      opens_after_slash_tighten.
    f_equal. apply IH. simpl. lia.
  - rewrite IH by apply lstrip_shorter.
    now rewrite span_lstrip, span_space.
  - rewrite !span_space by exact Hs. apply IH. simpl. lia.
Qed.

Lemma no_run_tail (c : char) (t : str) :
  has_whitespace_run (c :: t) = false -> has_whitespace_run t = false.
Proof.
  rewrite has_whitespace_run_cons. intros H.
  now apply orb_false_iff in H as [_ H].
Qed.

Lemma no_run_lstrip (s : str) :
  has_whitespace_run s = false -> has_whitespace_run (lstrip s) = false.
Proof.
  induction s as [|c t IH]; [reflexivity|]. intros H. cbn [lstrip].
  destruct (isspace c); [|exact H]. apply IH. now apply no_run_tail in H.
Qed.

Lemma no_run_tighten (s : str) :
  has_whitespace_run s = false ->
  has_whitespace_run (tighten_specials s) = false.
Proof.
  induction s as [s IH] using str_length_ind.
  destruct s as [|c t]; [reflexivity|]. intros H.
  pose proof (no_run_tail c t H) as Ht.
  destruct (tighten_cases c t)
    as [[Hc E]|[(Hs & Hc & E)|[(Hs & Hl & E)|(Hs & Hl & E)]]]; rewrite E.
  - rewrite has_whitespace_run_cons, (special_not_space c Hc).
    apply IH; [apply lstrip_shorter | now apply no_run_lstrip].
  - rewrite has_whitespace_run_cons, Hs. apply IH; [simpl; lia | exact Ht].
  - apply IH; [apply lstrip_shorter | now apply no_run_lstrip].
  - rewrite has_whitespace_run_cons in H |- *. rewrite Hs in H |- *.
    apply orb_false_iff in H as [H _]. cbn [andb] in H |- *.
    rewrite (starts_with_space_tighten t H). cbn [orb].
    apply IH; [simpl; lia | exact Ht].
Qed.

End Tighten.

Section Strip.

Lemma rstrip_split (s : str) :
  exists w, s = rstrip s ++ w /\ Forall (fun c => isspace c = true) w.
Proof.
  destruct (lstrip_split (rev s)) as (w & Hw & Hall).
  exists (rev w). split; [|now apply List.Forall_rev].
  unfold rstrip. rewrite <- rev_app_distr, <- Hw. symmetry. apply rev_involutive.
Qed.

Lemma spaces_starts_with (w : str) (x : char) :
  Forall (fun c => isspace c = true) w ->
  isspace x = false -> starts_with x w = false.
Proof.
  intros [|d w' Hd _] Hx; [reflexivity|]. cbn. now apply isspace_neq.
Qed.

Lemma spaces_closes (w : str) :
  Forall (fun c => isspace c = true) w -> closes w = false.
Proof.
  induction 1 as [|d w' Hd _ IH]; [reflexivity|]. now rewrite closes_space.
Qed.

Lemma spaces_span (w : str) :
  Forall (fun c => isspace c = true) w -> has_comment_span w = false.
Proof.
  induction 1 as [|d w' Hd _ IH]; [reflexivity|]. now rewrite span_space.
Qed.

Lemma spaces_non_whitespace (w : str) :
  Forall (fun c => isspace c = true) w -> non_whitespace w = [].
Proof.
  induction 1 as [|d w' Hd _ IH]; [reflexivity|].
  now rewrite non_whitespace_cons, Hd.
Qed.

Lemma starts_with_trailing (w : str) (x : char) (u : str) :
  Forall (fun c => isspace c = true) w ->
  isspace x = false -> starts_with x (u ++ w) = starts_with x u.
Proof.
  intros Hw Hx. destruct u; [now apply spaces_starts_with | reflexivity].
Qed.

Lemma closes_trailing (w u : str) :
  Forall (fun c => isspace c = true) w -> closes (u ++ w) = closes u.
Proof.
  intros Hw. induction u as [|c u IH]; [now apply spaces_closes|].
  cbn [app]. rewrite !closes_cons, starts_with_trailing by easy.
  now rewrite IH.
Qed.

Lemma opens_after_slash_trailing (w u : str) :
  Forall (fun c => isspace c = true) w ->
  opens_after_slash (u ++ w) = opens_after_slash u.
Proof.
  intros Hw. destruct u as [|d u].
  - cbn [app]. destruct Hw as [|d w' Hd _]; [reflexivity|].
    cbn. now rewrite (isspace_neq d asterisk Hd eq_refl).
  - cbn [app opens_after_slash]. now rewrite closes_trailing.
Qed.

Lemma span_trailing (w u : str) :
  Forall (fun c => isspace c = true) w ->
  has_comment_span (u ++ w) = has_comment_span u.
Proof.
  intros Hw. induction u as [|c u IH]; [now apply spaces_span|].
  cbn [app]. rewrite !has_comment_span_cons, !opens_comment_cons.
  now rewrite opens_after_slash_trailing, IH.
Qed.

Lemma non_whitespace_trailing (w u : str) :
  Forall (fun c => isspace c = true) w ->
  non_whitespace (u ++ w) = non_whitespace u.
Proof.
  intros Hw. unfold non_whitespace. rewrite List.filter_app.
  fold (non_whitespace w). rewrite (spaces_non_whitespace w Hw).
  apply app_nil_r.
Qed.

End Strip.

Section StripFacts.

Lemma no_run_prefix (a b : str) :
  has_whitespace_run (a ++ b) = false -> has_whitespace_run a = false.
Proof.
  induction a as [|c a IH]; [reflexivity|]. cbn [app].
  rewrite !has_whitespace_run_cons. intros H.
  apply orb_false_iff in H as [H1 H2]. rewrite (IH H2), orb_false_r.
  destruct a; [now rewrite andb_false_r | exact H1].
Qed.

Lemma closes_strip (s : str) : closes (strip s) = closes s.
Proof.
  unfold strip. destruct (rstrip_split (lstrip s)) as (w & Hw & Hall).
  pose proof (closes_trailing w (rstrip (lstrip s)) Hall) as H.
  rewrite <- Hw in H. now rewrite <- H, closes_lstrip.
Qed.

Lemma span_strip (s : str) : has_comment_span (strip s) = has_comment_span s.
Proof.
  unfold strip. destruct (rstrip_split (lstrip s)) as (w & Hw & Hall).
  pose proof (span_trailing w (rstrip (lstrip s)) Hall) as H.
  rewrite <- Hw in H. now rewrite <- H, span_lstrip.
Qed.

Lemma non_whitespace_strip (s : str) :
  non_whitespace (strip s) = non_whitespace s.
Proof.
  unfold strip. destruct (rstrip_split (lstrip s)) as (w & Hw & Hall).
  pose proof (non_whitespace_trailing w (rstrip (lstrip s)) Hall) as H.
  rewrite <- Hw in H. now rewrite <- H, non_whitespace_lstrip.
Qed.

Lemma no_run_strip (s : str) :
  has_whitespace_run s = false -> has_whitespace_run (strip s) = false.
Proof.
  intros H. apply no_run_lstrip in H.
  unfold strip. destruct (rstrip_split (lstrip s)) as (w & Hw & _).
  rewrite Hw in H. now apply no_run_prefix in H.
Qed.

Lemma non_whitespace_delete_adjacent (prev : option char) (s : str) :
  non_whitespace (delete_adjacent_spaces_from prev s) = non_whitespace s.
Proof.
  revert prev. induction s as [|c t IH]; intros prev; [reflexivity|].
  cbn [delete_adjacent_spaces_from].
  destruct ((c =? space) && _) eqn:E.
  - apply andb_true_iff in E as [E _]. apply N.eqb_eq in E. subst c.
    rewrite IH, non_whitespace_cons. reflexivity.
  - now rewrite !non_whitespace_cons, IH.
Qed.

End StripFacts.

Section Comments.

Lemma opens_comment_true (c : char) (t : str) :
  opens_comment (c :: t) = true ->
  c = slash
  /\ exists t' rest, t = asterisk :: t' /\ after_close t' = Some rest.
Proof.
  cbn [opens_comment]. intros H. apply andb_true_iff in H as [Hc H].
  apply N.eqb_eq in Hc. split; [exact Hc|].
  destruct t as [|d t']; [discriminate|]. cbn [opens_after_slash] in H.
  apply andb_true_iff in H as [Hd H]. apply N.eqb_eq in Hd. subst d.
  unfold closes in H. destruct (after_close t') as [rest|] eqn:E; [|discriminate].
  now exists t', rest.
Qed.

(** One step of the scan that removes comments: either a comment starts
    here and the scan resumes after it, or the character is copied. *)
Lemma remove_comments_cases (c : char) (t : str) :
  (opens_comment (c :: t) = true
   /\ exists pre rest,
        c :: t = pre ++ rest /\ (length rest < length (c :: t))%nat
        /\ remove_comments (c :: t) = remove_comments rest)
  \/ (opens_comment (c :: t) = false
      /\ remove_comments (c :: t) = c :: remove_comments t).
Proof.
  destruct (opens_comment (c :: t)) eqn:E.
  - left. split; [reflexivity|].
    destruct (opens_comment_true c t E) as (-> & t' & rest & -> & Hc).
    destruct (after_close_split t' rest Hc) as [body Hb].
    exists (slash :: asterisk :: body ++ [asterisk; slash]), rest.
    split; [|split].
    + rewrite Hb. cbn [app]. now rewrite <- app_assoc.
    + rewrite Hb. cbn [length]. rewrite !length_app. cbn [length]. lia.
    + now apply remove_comments_comment.
  - right. split; [reflexivity|].
    now apply remove_comments_copy, comment_re_no_match.
Qed.

Lemma starts_with_true (x : char) (t : str) :
  starts_with x t = true -> exists u, t = x :: u.
Proof.
  destruct t as [|d u]; [discriminate|]. cbn. intros H.
  apply N.eqb_eq in H. subst. now exists u.
Qed.

(** The first character the scan emits is the first character of the
    input, unless the input starts with a slash. *)
Lemma remove_comments_head (x : char) (t : str) :
  starts_with x (remove_comments t) = true ->
  starts_with x t = true \/ starts_with slash t = true.
Proof.
  destruct t as [|c t']; [discriminate|].
  destruct (remove_comments_cases c t') as [[E _]|[_ E]].
  - intros _. right. now destruct (opens_comment_true c t' E) as [-> _].
  - rewrite E. now left.
Qed.

Lemma closes_app_r (a b : str) : closes b = true -> closes (a ++ b) = true.
Proof.
  intros H. induction a as [|c a IH]; [exact H|].
  cbn [app]. rewrite closes_cons, IH. apply orb_true_r.
Qed.

(** An asterisk-slash of the output is one of the input. *)
Lemma closes_remove_comments (s : str) :
  closes (remove_comments s) = true -> closes s = true.
Proof.
  induction s as [s IH] using str_length_ind.
  destruct s as [|c t]; [discriminate|].
  destruct (remove_comments_cases c t)
    as [(_ & pre & rest & Hs & Hlen & E)|[_ E]]; rewrite E.
  - intros H. rewrite Hs. apply closes_app_r. now apply IH.
  - rewrite !closes_cons. intros H. apply orb_true_iff in H as [H|H].
    + apply andb_true_iff in H as [Hc H]. rewrite Hc.
      destruct (remove_comments_head slash t H) as [H'|H']; now rewrite H'.
    + rewrite (IH t); [apply orb_true_r | simpl; lia | exact H].
Qed.

Lemma find_None_suffix (old a b : str) :
  find old (a ++ b) = None -> find old b = None.
Proof.
  rewrite !find_None_iff. intros H (p & q & Hb). apply H.
  exists (a ++ p), q. now rewrite Hb, <- app_assoc.
Qed.

(** Where no comment opener directly follows a slash, removing the
    comments leaves no comment span. *)
Lemma span_remove_comments (s : str) :
  find [slash; slash; asterisk] s = None ->
  has_comment_span (remove_comments s) = false.
Proof.
  induction s as [s IH] using str_length_ind.
  destruct s as [|c t]; [reflexivity|]. intros Hfind.
  destruct (remove_comments_cases c t)
    as [(_ & pre & rest & Hs & Hlen & E)|[Hno E]]; rewrite E.
  - apply IH; [exact Hlen|]. rewrite Hs in Hfind.
    now apply find_None_suffix in Hfind.
  - assert (Ht : has_comment_span (remove_comments t) = false).
    { apply IH; [simpl; lia|]. now apply (find_None_suffix _ [c] t). }
    rewrite has_comment_span_cons, Ht, orb_false_r, opens_comment_cons.
    destruct (c =? slash) eqn:Hc; [|reflexivity]. cbn [andb].
    apply N.eqb_eq in Hc. subst c.
    destruct (opens_after_slash (remove_comments t)) eqn:Ho; [|reflexivity].
    exfalso.
    destruct (remove_comments t) as [|d u] eqn:Er; [discriminate|].
    cbn [opens_after_slash] in Ho. apply andb_true_iff in Ho as [Hd Hu].
    apply N.eqb_eq in Hd. subst d.
    assert (Hhead : starts_with asterisk (remove_comments t) = true)
      by now rewrite Er.
    destruct (remove_comments_head asterisk t Hhead) as [H|H];
      apply starts_with_true in H as [t1 ->].
    + destruct (remove_comments_cases asterisk t1) as [[E1 _]|[_ E1]];
        [discriminate|].
      rewrite E1 in Er. injection Er as Er. subst u.
      apply closes_remove_comments in Hu.
      rewrite opens_comment_cons in Hno. cbn in Hno.
      rewrite Hu in Hno. discriminate.
    + destruct (remove_comments_cases slash t1) as [[E1 _]|[_ E1]].
      * destruct (opens_comment_true slash t1 E1) as (_ & t' & r & -> & _).
        discriminate Hfind.
      * rewrite E1 in Er. discriminate.
Qed.

(** C2, as stated, fails: the text on both sides of a removed comment
    can join into a comment span, which stays in the output. *)
Lemma minify_css_comment_span_counterexample :
  (3 <= length (lit "//**/**/"))%nat
  /\ minify_css (lit "//**/**/") = lit "/**/"
  /\ has_comment_span (minify_css (lit "//**/**/")) = true.
Proof. vm_compute. repeat split. lia. Qed.

(** C2, amended. For every stylesheet: where no comment opener directly
    follows a slash in the input, the output holds no comment span (in
    general it holds one exactly when the text left by the single
    left-to-right removal of comments does); the output holds no two
    whitespace characters in a row; and deleting the spaces next to one of
    the characters { } : ; , from the comment-stripped input and from the
    output leaves the same sequence of non-whitespace characters. *)
Theorem minify_css_normal_form (content : str) :
  (find [slash; slash; asterisk] content = None ->
   has_comment_span (minify_css content) = false)
  /\ has_comment_span (minify_css content)
     = has_comment_span (remove_comments content)
  /\ has_whitespace_run (minify_css content) = false
  /\ non_whitespace (delete_adjacent_spaces (remove_comments content))
     = non_whitespace (delete_adjacent_spaces (minify_css content)).
Proof.
  assert (Hspan : has_comment_span (minify_css content)
                  = has_comment_span (remove_comments content)).
  { unfold minify_css. now rewrite span_strip, span_tighten, span_collapse. }
  split; [|split; [exact Hspan|split]].
  - intros H. rewrite Hspan. now apply span_remove_comments.
  - unfold minify_css. apply no_run_strip, no_run_tighten, no_run_collapse.
  - unfold delete_adjacent_spaces, minify_css.
    rewrite !non_whitespace_delete_adjacent.
    now rewrite non_whitespace_strip, non_whitespace_tighten,
      non_whitespace_collapse.
Qed.

Lemma minify_css_normal_form_witness :
  has_comment_span
    (minify_css (lit "/* comment */" ++ [newline] ++ lit "body { margin: 0; }"))
  = false.
Proof.
  apply (proj1 (minify_css_normal_form
                  (lit "/* comment */" ++ [newline]
                   ++ lit "body { margin: 0; }"))).
  vm_compute. reflexivity.
Defined.

End Comments.

(** ** The end-to-end scenarios of the specification *)

Section Scenarios.

Example scenario_inline_style :
  inject_css (minify_css (lit "a{color:  red;}"))
    (lit "<html>" ++ link_tag ++ lit "</html>")
  = lit "<html><style>a{color:red;}</style></html>".
Proof. vm_compute. reflexivity. Qed.

Example scenario_script_lines :
  minify_js (lit "foo();" ++ [newline; newline] ++ lit "bar();")
  = lit "foo();" ++ [newline] ++ lit "bar();".
Proof. vm_compute. reflexivity. Qed.

Example scenario_comment_removed :
  minify_css (lit "/* comment */" ++ [newline] ++ lit "body { margin: 0; }")
  = lit "body{margin:0;}".
Proof. vm_compute. reflexivity. Qed.

Example scenario_quote_and_backslash :
  escape_for_c (lit "<p>" ++ [dquote; backslash] ++ lit "</p>")
  = lit "<p>" ++ [backslash; dquote; backslash; backslash] ++ lit "</p>".
Proof. vm_compute. reflexivity. Qed.

Example scenario_missing_script_tag :
  assemble (lit "<html>" ++ link_tag ++ lit "</html>") (lit "a{}") (lit "f()")
  = lit "<html><style>a{}</style></html>".
Proof. vm_compute. reflexivity. Qed.

End Scenarios.

(** * Further properties *)

(** ** The escaper *)

Section EscaperMore.

Lemma c_unescape_step (c : char) (rest : str) :
  c_unescape (escape_char c ++ rest)
  = if c =? carriage_return then c_unescape rest
    else option_map (cons c) (c_unescape rest).
Proof.
  destruct (escape_char_cases c) as [[-> E]|[[-> E]|[[-> E]|[[-> E]|[[-> E]|H]]]]];
    try (rewrite E; reflexivity).
  destruct H as (H1 & H2 & H3 & H4 & _ & E). rewrite E.
  apply N.eqb_neq in H1, H2, H3, H4.
  cbn [app c_unescape]. now rewrite H1, H2, H3, H4.
Qed.

Lemma c_unescape_escape (content : str) :
  c_unescape (escape_for_c content) = Some (without_cr content).
Proof.
  induction content as [|c s IH]; [reflexivity|].
  rewrite escape_for_c_cons, c_unescape_step, IH.
  unfold without_cr. cbn [List.filter].
  now destruct (c =? carriage_return).
Qed.

(** X1. Read back as the body of a string literal, the escaped text is
    the input without its carriage returns: every backslash and double
    quote of the output belongs to an escape sequence. *)
Theorem escape_for_c_round_trip (content : str) :
  c_unescape (escape_for_c content) = Some (without_cr content).
Proof. apply c_unescape_escape. Qed.

(** X2. Two inputs with the same escaped text differ at most in their
    carriage returns. *)
Theorem escape_for_c_injective_up_to_cr (a b : str) :
  escape_for_c a = escape_for_c b -> without_cr a = without_cr b.
Proof.
  intros H. pose proof (c_unescape_escape a) as Ha.
  rewrite H, c_unescape_escape in Ha. now injection Ha.
Qed.

Lemma escape_for_c_injective_up_to_cr_witness :
  without_cr (lit "a" ++ [carriage_return; newline])
  = without_cr (lit "a" ++ [newline; carriage_return]).
Proof.
  apply escape_for_c_injective_up_to_cr. vm_compute. reflexivity.
Defined.

Lemma escape_char_no_raw (c x : char) :
  x = newline \/ x = tab -> ~ In x (escape_char c).
Proof.
  intros Hx.
  destruct (escape_char_cases c) as [[_ E]|[[_ E]|[[_ E]|[[_ E]|[[_ E]|H]]]]];
    try (rewrite E; destruct Hx as [-> | ->]; simpl;
         unfold newline, tab, backslash, dquote, letter_n, letter_t;
         intuition discriminate).
  destruct H as (_ & _ & H3 & _ & H5 & E). rewrite E. simpl.
  intros [->|[]]. destruct Hx; contradiction.
Qed.

(** X3. The escaped text holds no raw newline and no raw tab, so the
    literal stays on one source line. *)
Theorem escape_for_c_no_raw_control (content : str) :
  ~ In newline (escape_for_c content) /\ ~ In tab (escape_for_c content).
Proof.
  rewrite escape_for_c_flat_map.
  split; intros H; apply in_flat_map in H as (c & _ & H);
    revert H; apply escape_char_no_raw; auto.
Qed.

Lemma count_char_cons (x c : char) (s : str) :
  count_char x (c :: s)
  = if x =? c then S (count_char x s) else count_char x s.
Proof. unfold count_char. cbn [List.filter]. now destruct (x =? c). Qed.

(** X4. The length of the escaped text, which the run reports as the total
    size: one more character for each backslash, double quote, newline
    and tab of the input, one less for each carriage return. *)
Theorem escape_for_c_length (content : str) :
  (length (escape_for_c content) + count_char carriage_return content
   = length content + count_char backslash content
     + count_char dquote content + count_char newline content
     + count_char tab content)%nat.
Proof.
  induction content as [|c s IH]; [reflexivity|].
  rewrite escape_for_c_cons, length_app, !count_char_cons.
  destruct (escape_char_cases c) as [[-> E]|[[-> E]|[[-> E]|[[-> E]|[[-> E]|H]]]]];
    try (rewrite E; cbn; lia).
  destruct H as (H1 & H2 & H3 & H4 & H5 & E). rewrite E.
  rewrite !(N.eqb_sym _ c).
  apply N.eqb_neq in H1, H2, H3, H4, H5. rewrite H1, H2, H3, H4, H5.
  cbn [length]. lia.
Qed.

End EscaperMore.

(** ** The JS normalizer *)

Section LinesMore.

Lemma split_app (sep : char) (p r : str) :
  split sep (p ++ sep :: r) = split sep p ++ split sep r.
Proof.
  induction p as [|c p IH]; cbn [app split].
  - now rewrite N.eqb_refl.
  - destruct (c =? sep); [now rewrite IH|].
    rewrite IH. pose proof (split_nonempty sep p) as Hp.
    now destruct (split sep p).
Qed.

Lemma trimmed_nonempty_lines_app (a b : str) :
  trimmed_nonempty_lines (a ++ newline :: b)
  = trimmed_nonempty_lines a ++ trimmed_nonempty_lines b.
Proof.
  unfold trimmed_nonempty_lines.
  now rewrite split_app, map_app, List.filter_app.
Qed.

(** X5. The normalizer works line by line: the surviving lines of two
    texts joined by a newline are those of the first followed by those of
    the second, and the output is their join. *)
Theorem minify_js_line_by_line (a b : str) :
  trimmed_nonempty_lines (a ++ newline :: b)
  = trimmed_nonempty_lines a ++ trimmed_nonempty_lines b
  /\ minify_js (a ++ newline :: b)
     = join [newline] (trimmed_nonempty_lines a ++ trimmed_nonempty_lines b).
Proof.
  split; [apply trimmed_nonempty_lines_app|].
  now rewrite minify_js_join, trimmed_nonempty_lines_app.
Qed.

Lemma non_whitespace_app (a b : str) :
  non_whitespace (a ++ b) = non_whitespace a ++ non_whitespace b.
Proof. unfold non_whitespace. apply List.filter_app. Qed.

Lemma join_cons (sep x y : str) (rest : list str) :
  join sep (x :: y :: rest) = x ++ sep ++ join sep (y :: rest).
Proof. reflexivity. Qed.

Lemma non_whitespace_join (pieces : list str) :
  non_whitespace (join [newline] pieces) = concat (map non_whitespace pieces).
Proof.
  induction pieces as [|x rest IH]; [reflexivity|].
  destruct rest as [|y rest'].
  - cbn. now rewrite app_nil_r.
  - rewrite join_cons, !non_whitespace_app, IH. reflexivity.
Qed.

Lemma non_whitespace_split (s : str) :
  concat (map non_whitespace (split newline s)) = non_whitespace s.
Proof.
  induction s as [|c t IH]; [reflexivity|]. cbn [split].
  destruct (N.eqb_spec c newline) as [->|Hc].
  - cbn [map concat]. rewrite IH. reflexivity.
  - pose proof (split_nonempty newline t) as Hne.
    destruct (split newline t) as [|l ls]; [contradiction|].
    cbn [map concat] in IH |- *. rewrite !non_whitespace_cons.
    destruct (isspace c); [exact IH | now rewrite <- IH].
Qed.

Lemma non_whitespace_nil_strip (l : str) :
  non_whitespace l = [] -> strip l = [].
Proof.
  intros H. assert (lstrip l = []) as E.
  { induction l as [|c t IH]; [reflexivity|].
    rewrite non_whitespace_cons in H. cbn [lstrip].
    destruct (isspace c); [now apply IH | discriminate]. }
  unfold strip. now rewrite E.
Qed.

Lemma non_whitespace_survivors (lines : list str) :
  concat (map non_whitespace (List.filter truthy (map strip lines)))
  = concat (map non_whitespace lines).
Proof.
  induction lines as [|l ls IH]; [reflexivity|]. cbn [map List.filter concat].
  rewrite <- IH, <- (non_whitespace_strip l).
  destruct (strip l) as [|x u]; reflexivity.
Qed.

Lemma non_whitespace_minify_js (s : str) :
  non_whitespace (minify_js s) = non_whitespace s.
Proof.
  rewrite minify_js_join, non_whitespace_join.
  unfold trimmed_nonempty_lines.
  now rewrite non_whitespace_survivors, non_whitespace_split.
Qed.

(** X6. The normalizer removes whitespace only: the non-whitespace
    characters of the output are those of the input, in order. *)
Theorem minify_js_keeps_non_whitespace (s : str) :
  non_whitespace (minify_js s) = non_whitespace s.
Proof. apply non_whitespace_minify_js. Qed.

Lemma concat_nil_Forall (xs : list str) :
  concat xs = [] -> Forall (fun x => x = []) xs.
Proof.
  induction xs as [|x xs IH]; [constructor|]. cbn [concat]. intros H.
  apply app_eq_nil in H as [H1 H2]. constructor; [exact H1 | now apply IH].
Qed.

(** X7. The output is empty exactly when the input holds nothing but
    whitespace. *)
Theorem minify_js_empty_iff (s : str) :
  minify_js s = [] <-> non_whitespace s = [].
Proof.
  split; intros H.
  - now rewrite <- non_whitespace_minify_js, H.
  - rewrite minify_js_join. unfold trimmed_nonempty_lines.
    rewrite <- non_whitespace_split in H. apply concat_nil_Forall in H.
    revert H. induction (split newline s) as [|l ls IH]; intros H;
      [reflexivity|].
    cbn [map] in H. inversion H as [|? ? Hl Hls]; subst.
    cbn [map List.filter]. rewrite (non_whitespace_nil_strip l Hl).
    cbn [truthy]. now apply IH.
Qed.

End LinesMore.

Section LinesShape.

Lemma strip_clean (s : str) :
  clean_head (strip s) /\ clean_head (rev (strip s)).
Proof.
  unfold strip, rstrip. split.
  - apply clean_head_rev_lstrip_rev, lstrip_clean.
  - rewrite rev_involutive. apply lstrip_clean.
Qed.

Lemma settled_clean (l : str) :
  settled l -> l <> [] /\ clean_head l /\ clean_head (rev l).
Proof.
  intros (Ht & Hs & _). split; [now destruct l|].
  rewrite <- Hs. apply strip_clean.
Qed.

Lemma join_starts (sep x : str) (rest : list str) :
  exists tl, join sep (x :: rest) = x ++ tl.
Proof.
  destruct rest as [|y rest'].
  - exists []. cbn. now rewrite app_nil_r.
  - rewrite join_cons. eauto.
Qed.

Lemma join_ends (sep : str) (pieces : list str) :
  pieces <> [] -> exists pre, join sep pieces = pre ++ List.last pieces [].
Proof.
  induction pieces as [|x rest IH]; [contradiction|]. intros _.
  destruct rest as [|y rest'].
  - now exists [].
  - destruct IH as [pre Hpre]; [discriminate|].
    exists (x ++ sep ++ pre). rewrite join_cons, Hpre.
    now rewrite <- !app_assoc.
Qed.

Lemma clean_head_app_l (a b : str) :
  a <> [] -> clean_head a -> clean_head (a ++ b).
Proof. now destruct a. Qed.

Lemma settled_join_clean (pieces : list str) :
  Forall settled pieces ->
  clean_head (join [newline] pieces)
  /\ clean_head (rev (join [newline] pieces)).
Proof.
  intros Hall. destruct pieces as [|x rest]; [now split|]. split.
  - destruct (join_starts [newline] x rest) as [tl ->].
    inversion Hall as [|? ? Hx _]; subst.
    destruct (settled_clean x Hx) as (Hne & Hc & _).
    now apply clean_head_app_l.
  - destruct (join_ends [newline] (x :: rest)) as [pre ->]; [discriminate|].
    rewrite rev_app_distr.
    assert (settled (List.last (x :: rest) [])) as Hl.
    { rewrite List.Forall_forall in Hall. apply Hall.
      destruct (@exists_last _ (x :: rest)) as (l' & a & E); [discriminate|].
      rewrite E, last_last. apply in_or_app. right. now left. }
    destruct (settled_clean _ Hl) as (Hne & _ & Hc).
    apply clean_head_app_l; [|exact Hc].
    intros E. apply Hne. apply (f_equal (@rev char)) in E.
    now rewrite rev_involutive in E.
Qed.

(** X8. The output neither starts nor ends with whitespace and holds no
    empty line. *)
Theorem minify_js_output_shape (s : str) :
  strip (minify_js s) = minify_js s
  /\ find [newline; newline] (minify_js s) = None.
Proof.
  pose proof (trimmed_nonempty_lines_settled s) as Hall. split.
  - rewrite minify_js_join.
    destruct (settled_join_clean _ Hall) as [H1 H2]. now apply strip_fixed.
  - apply find_None_iff. intros (p & q & E).
    pose proof (split_minify_js s) as Hs. rewrite E in Hs.
    cbn [app] in Hs. rewrite split_app in Hs. cbn [split] in Hs.
    rewrite N.eqb_refl in Hs.
    destruct (trimmed_nonempty_lines s) as [|l ls] eqn:El.
    + pose proof (split_nonempty newline p) as Hp.
      destruct (split newline p) as [|a [|b c]]; try contradiction;
        discriminate Hs.
    + rewrite List.Forall_forall in Hall.
      assert (In [] (l :: ls)) as Hin
        by (rewrite <- Hs; apply in_or_app; right; now left).
      now destruct (Hall [] Hin) as [Ht _].
Qed.

Lemma length_join (pieces : list str) :
  length (join [newline] pieces) = (lines_size pieces - 1)%nat.
Proof.
  unfold lines_size. induction pieces as [|x rest IH]; [reflexivity|].
  destruct rest as [|y rest'].
  - cbn. lia.
  - rewrite join_cons, !length_app, IH. cbn [map length].
    unfold list_sum. cbn [fold_right]. lia.
Qed.

Lemma lines_size_split (s : str) :
  lines_size (split newline s) = S (length s).
Proof.
  unfold lines_size. induction s as [|c t IH]; [reflexivity|]. cbn [split].
  destruct (c =? newline).
  - cbn [map length]. unfold list_sum in IH |- *. cbn [fold_right].
    rewrite IH. reflexivity.
  - pose proof (split_nonempty newline t) as Hne.
    destruct (split newline t) as [|l ls]; [contradiction|].
    cbn [map length] in IH |- *. unfold list_sum in IH |- *.
    cbn [fold_right] in IH |- *. lia.
Qed.

Lemma strip_length (s : str) : (length (strip s) <= length s)%nat.
Proof.
  unfold strip, rstrip. rewrite length_rev.
  pose proof (lstrip_length (rev (lstrip s))) as H1.
  rewrite length_rev in H1. pose proof (lstrip_length s). lia.
Qed.

Lemma lines_size_survivors (lines : list str) :
  (lines_size (List.filter truthy (map strip lines)) <= lines_size lines)%nat.
Proof.
  unfold lines_size. induction lines as [|l ls IH]; [apply Nat.le_refl|].
  cbn [map List.filter]. pose proof (strip_length l).
  unfold list_sum in IH |- *.
  destruct (truthy (strip l)); cbn [map fold_right]; lia.
Qed.

(** X9. The output is never longer than the input. *)
Theorem minify_js_length (s : str) :
  (length (minify_js s) <= length s)%nat.
Proof.
  rewrite minify_js_join, length_join. unfold trimmed_nonempty_lines.
  pose proof (lines_size_survivors (split newline s)) as H.
  rewrite lines_size_split in H. lia.
Qed.

End LinesShape.

(** ** The CSS normalizer *)

Section CssSpaces.

Lemma only_plain_spaces_cons (c : char) (t : str) :
  only_plain_spaces (c :: t)
  = (negb (isspace c) || (c =? space)) && only_plain_spaces t.
Proof. reflexivity. Qed.

Lemma only_plain_spaces_app (a b : str) :
  only_plain_spaces (a ++ b) = only_plain_spaces a && only_plain_spaces b.
Proof. apply forallb_app. Qed.

Lemma only_plain_spaces_lstrip (s : str) :
  only_plain_spaces s = true -> only_plain_spaces (lstrip s) = true.
Proof.
  destruct (lstrip_split s) as (w & Hw & _). intros H.
  rewrite Hw, only_plain_spaces_app in H. now apply andb_true_iff in H.
Qed.

Lemma only_plain_spaces_strip (s : str) :
  only_plain_spaces s = true -> only_plain_spaces (strip s) = true.
Proof.
  intros H. apply only_plain_spaces_lstrip in H. unfold strip.
  destruct (rstrip_split (lstrip s)) as (w & Hw & _).
  rewrite Hw, only_plain_spaces_app in H. now apply andb_true_iff in H.
Qed.

Lemma only_plain_spaces_collapse (s : str) :
  only_plain_spaces (collapse_whitespace s) = true.
Proof.
  induction s as [s IH] using str_length_ind.
  destruct s as [|c t]; [reflexivity|]. destruct (isspace c) eqn:Hc.
  - rewrite collapse_whitespace_run by exact Hc.
    rewrite only_plain_spaces_cons, IH by apply lstrip_shorter. reflexivity.
  - rewrite collapse_whitespace_copy by exact Hc.
    rewrite only_plain_spaces_cons, Hc, IH by (simpl; lia). reflexivity.
Qed.

Lemma only_plain_spaces_tighten (s : str) :
  only_plain_spaces s = true -> only_plain_spaces (tighten_specials s) = true.
Proof.
  induction s as [s IH] using str_length_ind.
  destruct s as [|c t]; [reflexivity|]. rewrite only_plain_spaces_cons.
  intros H. apply andb_true_iff in H as [Hc Ht].
  destruct (tighten_cases c t)
    as [[_ E]|[(_ & _ & E)|[(_ & _ & E)|(_ & _ & E)]]]; rewrite E;
    rewrite ?only_plain_spaces_cons, ?Hc; cbn [andb];
    apply IH; try apply lstrip_shorter; try (simpl; lia);
    try exact Ht; now apply only_plain_spaces_lstrip.
Qed.

Lemma space_next_to_special_cons (c : char) (t : str) :
  space_next_to_special (c :: t)
  = (isspace c && starts_with_special t)
    || (is_special c && starts_with_space t)
    || space_next_to_special t.
Proof. reflexivity. Qed.

Lemma tight_parts (c : char) (t : str) :
  space_next_to_special (c :: t) = false ->
  isspace c && starts_with_special t = false
  /\ is_special c && starts_with_space t = false
  /\ space_next_to_special t = false.
Proof.
  rewrite space_next_to_special_cons. intros H.
  apply orb_false_iff in H as [H H3]. apply orb_false_iff in H as [H1 H2].
  auto.
Qed.

Lemma tight_lstrip (s : str) :
  space_next_to_special s = false ->
  space_next_to_special (lstrip s) = false.
Proof.
  induction s as [|c t IH]; [reflexivity|]. intros H. cbn [lstrip].
  destruct (isspace c); [|exact H]. apply IH. now apply tight_parts in H.
Qed.

Lemma tight_prefix (a b : str) :
  space_next_to_special (a ++ b) = false -> space_next_to_special a = false.
Proof.
  induction a as [|c a IH]; [reflexivity|]. cbn [app]. intros H.
  apply tight_parts in H as (H1 & H2 & H3).
  rewrite space_next_to_special_cons, (IH H3), orb_false_r.
  destruct a; [now rewrite !andb_false_r|].
  cbn [app starts_with_special starts_with_space] in H1, H2 |- *.
  now rewrite H1, H2.
Qed.

Lemma tight_strip (s : str) :
  space_next_to_special s = false -> space_next_to_special (strip s) = false.
Proof.
  intros H. apply tight_lstrip in H. unfold strip.
  destruct (rstrip_split (lstrip s)) as (w & Hw & _).
  rewrite Hw in H. now apply tight_prefix in H.
Qed.

Lemma starts_with_special_tighten (t : str) :
  starts_with_special (lstrip t) = false ->
  starts_with_special (tighten_specials t) = false.
Proof.
  destruct t as [|d u]; [reflexivity|].
  destruct (tighten_cases d u)
    as [[Hc E]|[(Hs & Hc & E)|[(Hs & Hl & E)|(Hs & Hl & E)]]]; rewrite E.
  - rewrite lstrip_nonspace by now apply special_not_space.
    cbn. congruence.
  - intros _. exact Hc.
  - rewrite lstrip_space by exact Hs. congruence.
  - intros _. cbn. now apply isspace_not_special.
Qed.

Lemma tight_tighten (s : str) :
  space_next_to_special (tighten_specials s) = false.
Proof.
  induction s as [s IH] using str_length_ind.
  destruct s as [|c t]; [reflexivity|].
  destruct (tighten_cases c t)
    as [[Hc E]|[(Hs & Hc & E)|[(Hs & Hl & E)|(Hs & Hl & E)]]]; rewrite E.
  - rewrite space_next_to_special_cons, (special_not_space c Hc).
    rewrite starts_with_space_tighten by apply starts_with_space_lstrip.
    rewrite andb_false_r. apply IH, lstrip_shorter.
  - rewrite space_next_to_special_cons, Hs, Hc. apply IH. simpl. lia.
  - apply IH, lstrip_shorter.
  - rewrite space_next_to_special_cons.
    rewrite (starts_with_special_tighten t Hl), andb_false_r.
    rewrite (isspace_not_special c Hs). apply IH. simpl. lia.
Qed.

Lemma delete_adjacent_spaces_tight (prev : option char) (s : str) :
  space_next_to_special s = false ->
  match prev with
  | Some p => is_special p && starts_with_space s = false
  | None => True
  end ->
  delete_adjacent_spaces_from prev s = s.
Proof.
  revert prev. induction s as [|c t IH]; intros prev H Hp; [reflexivity|].
  apply tight_parts in H as (H1 & H2 & H3).
  cbn [delete_adjacent_spaces_from].
  rewrite (IH (Some c) H3 H2).
  destruct (c =? space) eqn:Ec; [|reflexivity].
  apply N.eqb_eq in Ec. subst c. change (isspace space) with true in *.
  cbn [andb] in H1. destruct t as [|d u].
  - destruct prev as [p|]; [|reflexivity].
    cbn in Hp. rewrite andb_true_r in Hp. now rewrite Hp.
  - cbn in H1. rewrite H1, orb_false_r.
    destruct prev as [p|]; [|reflexivity].
    cbn in Hp. rewrite andb_true_r in Hp. now rewrite Hp.
Qed.

Lemma minify_css_tight (content : str) :
  space_next_to_special (minify_css content) = false.
Proof. unfold minify_css. apply tight_strip, tight_tighten. Qed.

Lemma minify_css_plain (content : str) :
  only_plain_spaces (minify_css content) = true.
Proof.
  unfold minify_css.
  apply only_plain_spaces_strip, only_plain_spaces_tighten,
    only_plain_spaces_collapse.
Qed.

(** X10. In the output every whitespace character is an ASCII space, and
    none stands directly before or after one of { } : ; , so deleting the
    spaces next to those characters changes nothing. *)
Theorem minify_css_spaces (content : str) :
  only_plain_spaces (minify_css content) = true
  /\ space_next_to_special (minify_css content) = false
  /\ delete_adjacent_spaces (minify_css content) = minify_css content.
Proof.
  split; [apply minify_css_plain|]. split; [apply minify_css_tight|].
  apply delete_adjacent_spaces_tight; [apply minify_css_tight | exact I].
Qed.

End CssSpaces.

Section CssMore.

Lemma remove_comments_length (s : str) :
  (length (remove_comments s) <= length s)%nat.
Proof.
  induction s as [s IH] using str_length_ind.
  destruct s as [|c t]; [apply Nat.le_refl|].
  destruct (remove_comments_cases c t)
    as [(_ & pre & rest & Hs & Hlen & E)|[_ E]]; rewrite E.
  - pose proof (IH rest Hlen). lia.
  - pose proof (IH t). cbn [length] in *. lia.
Qed.

Lemma collapse_whitespace_length (s : str) :
  (length (collapse_whitespace s) <= length s)%nat.
Proof.
  induction s as [s IH] using str_length_ind.
  destruct s as [|c t]; [apply Nat.le_refl|]. destruct (isspace c) eqn:Hc.
  - rewrite collapse_whitespace_run by exact Hc.
    pose proof (IH (lstrip t) (lstrip_shorter c t)).
    pose proof (lstrip_length t). cbn [length]. lia.
  - rewrite collapse_whitespace_copy by exact Hc.
    pose proof (IH t). cbn [length] in *. lia.
Qed.

Lemma tighten_specials_length (s : str) :
  (length (tighten_specials s) <= length s)%nat.
Proof.
  induction s as [s IH] using str_length_ind.
  destruct s as [|c t]; [apply Nat.le_refl|].
  pose proof (IH (lstrip t) (lstrip_shorter c t)) as H1.
  pose proof (lstrip_length t) as H2. pose proof (IH t) as H3.
  destruct (tighten_cases c t)
    as [[_ E]|[(_ & _ & E)|[(_ & _ & E)|(_ & _ & E)]]]; rewrite E;
    cbn [length] in *; lia.
Qed.

(** X11. The normalized stylesheet is never longer than the input. *)
Theorem minify_css_length (content : str) :
  (length (minify_css content) <= length content)%nat.
Proof.
  unfold minify_css.
  pose proof (strip_length
                (tighten_specials (collapse_whitespace (remove_comments content)))).
  pose proof (tighten_specials_length
                (collapse_whitespace (remove_comments content))).
  pose proof (collapse_whitespace_length (remove_comments content)).
  pose proof (remove_comments_length content). lia.
Qed.

Lemma remove_comments_no_span (s : str) :
  has_comment_span s = false -> remove_comments s = s.
Proof.
  induction s as [|c t IH]; [reflexivity|].
  rewrite has_comment_span_cons. intros H.
  apply orb_false_iff in H as [Ho Ht].
  destruct (remove_comments_cases c t) as [[E _]|[_ E]]; [congruence|].
  now rewrite E, IH.
Qed.

Lemma non_whitespace_minify_css (content : str) :
  non_whitespace (minify_css content)
  = non_whitespace (remove_comments content).
Proof.
  unfold minify_css.
  now rewrite non_whitespace_strip, non_whitespace_tighten,
    non_whitespace_collapse.
Qed.

(** X12. A stylesheet without a comment span passes the comment removal
    unchanged, and its non-whitespace characters are those of the output,
    in order: only whitespace is removed. *)
Theorem minify_css_without_comments (content : str) :
  has_comment_span content = false ->
  remove_comments content = content
  /\ non_whitespace (minify_css content) = non_whitespace content.
Proof.
  intros H. pose proof (remove_comments_no_span content H) as E.
  split; [exact E|]. now rewrite non_whitespace_minify_css, E.
Qed.

Lemma minify_css_without_comments_witness :
  remove_comments (lit "body { margin: 0; }") = lit "body { margin: 0; }"
  /\ non_whitespace (minify_css (lit "body { margin: 0; }"))
     = non_whitespace (lit "body { margin: 0; }").
Proof.
  apply minify_css_without_comments. vm_compute. reflexivity.
Defined.

Lemma starts_with_space_clean (t : str) :
  starts_with_space t = false -> lstrip t = t.
Proof. intros H. apply lstrip_id. now destruct t. Qed.

Lemma collapse_whitespace_fixed (s : str) :
  only_plain_spaces s = true -> has_whitespace_run s = false ->
  collapse_whitespace s = s.
Proof.
  induction s as [|c t IH]; [reflexivity|].
  rewrite only_plain_spaces_cons, has_whitespace_run_cons. intros Hp Hr.
  apply andb_true_iff in Hp as [Hc Hp].
  apply orb_false_iff in Hr as [Hh Hr].
  destruct (isspace c) eqn:Hs.
  - cbn in Hc. apply N.eqb_eq in Hc. subst c. cbn [andb] in Hh.
    rewrite collapse_whitespace_run by exact Hs.
    now rewrite (starts_with_space_clean t Hh), (IH Hp Hr).
  - rewrite collapse_whitespace_copy by exact Hs. now rewrite (IH Hp Hr).
Qed.

Lemma tight_before_special (s : str) :
  space_next_to_special s = false -> starts_with_space s = true ->
  starts_with_special (lstrip s) = false.
Proof.
  induction s as [|c t IH]; [discriminate|]. intros H Hc. cbn in Hc.
  apply tight_parts in H as (H1 & _ & H3). rewrite Hc in H1. cbn [andb] in H1.
  rewrite lstrip_space by exact Hc.
  destruct (starts_with_space t) eqn:Ht; [now apply IH|].
  now rewrite starts_with_space_clean.
Qed.

Lemma tighten_specials_fixed (s : str) :
  space_next_to_special s = false -> tighten_specials s = s.
Proof.
  induction s as [|c t IH]; [reflexivity|]. intros H.
  pose proof (tight_before_special (c :: t) H) as Hb.
  apply tight_parts in H as (H1 & H2 & H3).
  destruct (tighten_cases c t)
    as [[Hc E]|[(Hs & Hc & E)|[(Hs & Hl & E)|(Hs & Hl & E)]]]; rewrite E.
  - rewrite Hc in H2. cbn [andb] in H2.
    now rewrite (starts_with_space_clean t H2), (IH H3).
  - now rewrite (IH H3).
  - pose proof (Hb Hs) as Hb'. rewrite lstrip_space in Hb' by exact Hs.
    congruence.
  - now rewrite (IH H3).
Qed.

Lemma minify_css_no_run (content : str) :
  has_whitespace_run (minify_css content) = false.
Proof.
  unfold minify_css. apply no_run_strip, no_run_tighten, no_run_collapse.
Qed.

Lemma minify_css_span (content : str) :
  has_comment_span (minify_css content)
  = has_comment_span (remove_comments content).
Proof.
  unfold minify_css. now rewrite span_strip, span_tighten, span_collapse.
Qed.

Lemma minify_css_fixed (out : str) :
  has_comment_span out = false -> only_plain_spaces out = true ->
  has_whitespace_run out = false -> space_next_to_special out = false ->
  strip out = out -> minify_css out = out.
Proof.
  intros H1 H2 H3 H4 H5. unfold minify_css.
  rewrite (remove_comments_no_span out H1).
  rewrite (collapse_whitespace_fixed out H2 H3).
  now rewrite (tighten_specials_fixed out H4).
Qed.

(** X13. Normalizing twice gives what normalizing once gives, for every
    stylesheet in which no comment opener directly follows a slash. *)
Theorem minify_css_idempotent (content : str) :
  find [slash; slash; asterisk] content = None ->
  minify_css (minify_css content) = minify_css content.
Proof.
  intros H. apply minify_css_fixed.
  - rewrite minify_css_span. now apply span_remove_comments.
  - apply minify_css_plain.
  - apply minify_css_no_run.
  - apply minify_css_tight.
  - unfold minify_css. apply strip_idempotent.
Qed.

Lemma minify_css_idempotent_witness :
  minify_css (minify_css (lit "a { color : red ; } /* c */ b , i { } "))
  = minify_css (lit "a { color : red ; } /* c */ b , i { } ").
Proof. apply minify_css_idempotent. vm_compute. reflexivity. Defined.

Lemma after_close_body (body rest : str) :
  closes body = false ->
  after_close (body ++ [asterisk; slash] ++ rest) = Some rest.
Proof.
  induction body as [|c body IH]; [reflexivity|]. rewrite closes_cons.
  intros H. apply orb_false_iff in H as [Hc Hb].
  cbn [app after_close]. destruct body as [|d body'].
  - cbn [app]. cbn [starts_with] in Hc. rewrite andb_false_r in Hc.
    change (asterisk =? slash) with false. rewrite andb_false_r.
    reflexivity.
  - cbn [app starts_with] in Hc |- *. rewrite Hc. now apply IH.
Qed.

(** X14. A comment whose body holds no asterisk-slash is removed whole,
    after a text without a slash: the comment ends at its first closer
    and the scan resumes right after it. *)
Theorem remove_comments_whole_comment (before body rest : str) :
  ~ In slash before -> closes body = false ->
  remove_comments
    (before ++ [slash; asterisk] ++ body ++ [asterisk; slash] ++ rest)
  = before ++ remove_comments rest.
Proof.
  intros Hb Hc. induction before as [|c before IH].
  - cbn [app]. apply remove_comments_comment. now apply after_close_body.
  - cbn [app]. rewrite remove_comments_copy.
    + f_equal. apply IH. intros Hin. apply Hb. now right.
    + apply comment_re_no_match. rewrite opens_comment_cons.
      assert ((c =? slash) = false) as ->; [|reflexivity].
      apply N.eqb_neq. intros ->. apply Hb. now left.
Qed.

Lemma remove_comments_whole_comment_witness :
  remove_comments
    (lit "a{} " ++ [slash; asterisk] ++ lit " x * y "
     ++ [asterisk; slash] ++ lit " b{}")
  = lit "a{} " ++ remove_comments (lit " b{}").
Proof.
  apply remove_comments_whole_comment.
  - vm_compute. intuition discriminate.
  - vm_compute. reflexivity.
Defined.

Lemma clean_blank_nil (s : str) :
  clean_head s -> non_whitespace s = [] -> s = [].
Proof.
  destruct s as [|c t]; [reflexivity|]. cbn [clean_head]. intros Hc.
  rewrite non_whitespace_cons, Hc. discriminate.
Qed.

(** X15. The output is empty exactly when nothing but whitespace is left
    once the comments are removed. *)
Theorem minify_css_empty_iff (content : str) :
  minify_css content = []
  <-> non_whitespace (remove_comments content) = [].
Proof.
  rewrite <- non_whitespace_minify_css. split; [now intros ->|].
  apply clean_blank_nil. unfold minify_css. apply strip_clean.
Qed.

End CssMore.

(** ** The assembler and the run *)

Section RunMore.

(** X16. Where a tag occurs exactly once, that occurrence alone is
    replaced and the markup around it is kept as it is. *)
Theorem assemble_single_occurrence (html css js : str) (i : nat) :
  (find link_tag html = Some i ->
   find link_tag (skipn (i + length link_tag) html) = None ->
   inject_css css html
   = firstn i html ++ style_block css ++ skipn (i + length link_tag) html)
  /\ (find script_tag html = Some i ->
      find script_tag (skipn (i + length script_tag) html) = None ->
      inject_js js html
      = firstn i html ++ script_block js
        ++ skipn (i + length script_tag) html).
Proof.
  split; intros H1 H2.
  - unfold inject_css.
    rewrite (replace_found _ _ _ i link_tag_nonempty H1).
    now rewrite (replace_absent _ _ _ H2).
  - unfold inject_js.
    rewrite (replace_found _ _ _ i script_tag_nonempty H1).
    now rewrite (replace_absent _ _ _ H2).
Qed.

Lemma assemble_single_occurrence_witness :
  inject_css (lit "a{}") (lit "<html>" ++ link_tag ++ lit "</html>")
  = lit "<html>" ++ style_block (lit "a{}") ++ lit "</html>"
  /\ inject_js (lit "f()") (lit "<body>" ++ script_tag ++ lit "</body>")
     = lit "<body>" ++ script_block (lit "f()") ++ lit "</body>".
Proof.
  split.
  - apply (proj1 (assemble_single_occurrence
                    (lit "<html>" ++ link_tag ++ lit "</html>")
                    (lit "a{}") [] 6)); vm_compute; reflexivity.
  - apply (proj2 (assemble_single_occurrence
                    (lit "<body>" ++ script_tag ++ lit "</body>")
                    [] (lit "f()") 6)); vm_compute; reflexivity.
Defined.

Lemma main_raises_or_reads (w : world) :
  (exists path, main w = (Raised (FileAccessError path), w))
  \/ (exists html css js,
        files w !! html_path = Some html
        /\ files w !! css_path = Some css
        /\ files w !! js_path = Some js).
Proof.
  unfold main, bind, read_text.
  destruct (files w !! html_path) as [html|]; [|left; now exists html_path].
  destruct (files w !! css_path) as [css|]; [|left; now exists css_path].
  destruct (files w !! js_path) as [js|]; [|left; now exists js_path].
  right. now exists html, css, js.
Qed.

(** X17. Whatever the outcome, a run leaves every file other than
    [WebContent.h] as it was. *)
Theorem main_writes_only_the_header (w : world) (path : string) :
  path <> header_path ->
  files (snd (main w)) !! path = files w !! path.
Proof.
  intros Hp.
  destruct (main_raises_or_reads w)
    as [[p E]|(html & css & js & Hh & Hc & Hj)].
  - now rewrite E.
  - rewrite (main_success w html css js Hh Hc Hj). cbn [snd files].
    apply lookup_insert_ne. congruence.
Qed.

Lemma main_writes_only_the_header_witness :
  files (snd (main sample_world)) !! css_path
  = files sample_world !! css_path.
Proof. apply main_writes_only_the_header. discriminate. Defined.





End RunMore.

Section EndToEnd.



End EndToEnd.
